(** * ini2json: the typed value recorder

    A verification development for [ini2json.go].  The program records
    every (key, value) pair that the INI reader hands to
    [typedValues.Add]; the value is classified by a cascade of parsers
    of the Go standard library and appended to the sequence stored under
    the key.

    The file is organised as follows.
    - [Module big]: the parts of [math/big] that [Add] and
      [bigFloat.MarshalJSON] call ([Int.SetString], [Int.String],
      [ParseFloat], [Float.MarshalText]).
    - [Module strconv]: [ParseBool], [ParseInt] and the 64-bit
      [ParseFloat] used by the JSON decoder.
    - [Module json]: the scanner and decoder behind [json.Unmarshal] into
      an empty interface.
    - the program itself: [typedValues], [bigFloat], [Add].
    - the theorems.

    The library functions are modelled after their Go sources, for the
    arguments the program passes (base 10, 256 bits, round to nearest
    even, a nil empty interface as the decoding target).  Go strings are
    byte sequences, and so are Rocq's [string]s; integers of machine
    width are [Z] with the wrap-around written out; a [big.Int] is a
    [Z], the mantissa of a [big.Float] an [N]. *)

From Stdlib Require Import ZArith NArith Ascii String List Bool Lia.
From Stdlib Require Import SpecFloat.
From stdpp Require Import base option gmap strings.

Local Open Scope Z_scope.

(** ** Outcomes

    A Go call either returns or panics. *)

Inductive outcome (A : Type) : Type :=
| Returns (a : A)
| Panics (msg : string).
Arguments Returns {A} a.
Arguments Panics {A} msg.

Global Instance outcome_ret : MRet outcome := fun _ a => Returns a.

Global Instance outcome_bind : MBind outcome := fun _ _ k o =>
  match o with
  | Returns a => k a
  | Panics msg => Panics msg
  end.

(** ** Bytes *)

Definition byte_val (c : ascii) : Z := Z.of_N (N_of_ascii c).

Definition byte_of (z : Z) : ascii := ascii_of_N (Z.to_N z).

(** The double quote. *)
Definition dquote : ascii := byte_of 34.

Definition is_digit (c : ascii) : bool :=
  (byte_val "0" <=? byte_val c) && (byte_val c <=? byte_val "9").

Definition digit_of (c : ascii) : N := Z.to_N (byte_val c - byte_val "0").

(** The number a string of decimal digits denotes, continuing from [z]. *)
Fixpoint digits_value (z : N) (s : string) : N :=
  match s with
  | EmptyString => z
  | String c s' => digits_value (z * 10 + digit_of c)%N s'
  end.

Fixpoint all_digits (s : string) : bool :=
  match s with
  | EmptyString => true
  | String c s' => is_digit c && all_digits s'
  end.

Fixpoint string_rev_app (s acc : string) : string :=
  match s with
  | EmptyString => acc
  | String c s' => string_rev_app s' (String c acc)
  end.

Definition string_rev (s : string) : string := string_rev_app s EmptyString.

Definition strlen (s : string) : Z := Z.of_nat (String.length s).

(** 64-bit two's complement wrap-around, for Go's [int64]. *)
Definition wrap64 (z : Z) : Z := (z + 2^63) mod 2^64 - 2^63.

(** The decimal digits of a magnitude, most significant first, ["0"] for
    zero: what [nat.utoa(10)] of math/big and [formatBits] of strconv
    produce.  The recursion is on the bit length, which bounds the
    number of decimal digits. *)
Fixpoint utoa_loop (fuel : nat) (n : N) (acc : string) : string :=
  let acc' := String (byte_of (byte_val "0" + Z.of_N (n mod 10))) acc in
  match fuel with
  | O => acc'
  | S fuel' => if (n / 10 =? 0)%N then acc' else utoa_loop fuel' (n / 10)%N acc'
  end.

Definition utoa (n : N) : string := utoa_loop (N.to_nat (N.size n)) n EmptyString.

Definition itoa (x : Z) : string :=
  if x <? 0 then String "-" (utoa (Z.abs_N x)) else utoa (Z.abs_N x).

(** * strconv *)

Module strconv.

(** [ParseBool]: the twelve accepted spellings. *)
Definition ParseBool (str : string) : option bool :=
  if String.eqb str "1" || String.eqb str "t" || String.eqb str "T"
     || String.eqb str "TRUE" || String.eqb str "true" || String.eqb str "True"
  then Some true
  else if String.eqb str "0" || String.eqb str "f" || String.eqb str "F"
     || String.eqb str "FALSE" || String.eqb str "false" || String.eqb str "False"
  then Some false
  else None.

(** [ParseUint(s, 10, 64)]: [None] stands for a syntax or range error. *)
Definition ParseUint (s : string) : option Z :=
  match s with
  | EmptyString => None
  | _ =>
      if all_digits s then
        let n := Z.of_N (digits_value 0 s) in
        if n <=? 2^64 - 1 then Some n else None
      else None
  end.

(** [ParseInt(s, 10, 64)]. *)
Definition ParseInt (s : string) : option Z :=
  match s with
  | EmptyString => None
  | String c s' =>
      let neg := Ascii.eqb c "-" in
      let body := if Ascii.eqb c "+" || Ascii.eqb c "-" then s' else s in
      match ParseUint body with
      | None => None
      | Some un =>
          let cutoff := 2^63 in
          if negb neg && (cutoff <=? un) then None
          else if neg && (cutoff <? un) then None
          else Some (if neg then - un else un)
      end
  end.

(** [AppendInt(buf, i, 10)] appends [FormatInt(i, 10)]. *)
Definition FormatInt (i : Z) : string := itoa i.

(** A decimal floating-point literal: sign, digits with an optional
    point, optional exponent.  [readFloat] returns the mantissa digits
    as one integer and the decimal exponent. *)
Fixpoint read_digits (s : string) (acc : string) : string * string :=
  match s with
  | EmptyString => (string_rev acc, s)
  | String c s' => if is_digit c then read_digits s' (String c acc) else (string_rev acc, s)
  end.

Definition readFloat (s : string) : option (bool * N * Z) :=
  let '(neg, s1) :=
    match s with
    | String c s' =>
        if Ascii.eqb c "-" then (true, s')
        else if Ascii.eqb c "+" then (false, s') else (false, s)
    | EmptyString => (false, s)
    end in
  let '(ip, s2) := read_digits s1 EmptyString in
  let '(fp, s3) :=
    match s2 with
    | String c s' => if Ascii.eqb c "." then read_digits s' EmptyString else (EmptyString, s2)
    | EmptyString => (EmptyString, s2)
    end in
  if (String.length ip + String.length fp =? 0)%nat then None
  else
    let m := digits_value (digits_value 0 ip) fp in
    let e0 := - strlen fp in
    match s3 with
    | EmptyString => Some (neg, m, e0)
    | String c s4 =>
        if Ascii.eqb c "e" || Ascii.eqb c "E" then
          let '(eneg, s5) :=
            match s4 with
            | String c' s' =>
                if Ascii.eqb c' "-" then (true, s')
                else if Ascii.eqb c' "+" then (false, s') else (false, s4)
            | EmptyString => (false, s4)
            end in
          let '(ed, s6) := read_digits s5 EmptyString in
          match ed, s6 with
          | String _ _, EmptyString =>
              let e := Z.of_N (digits_value 0 ed) in
              Some (neg, m, e0 + (if eneg then - e else e))
          | _, _ => None
          end
        else None
    end.

(** The binary64 value nearest to [m * 10^e], ties to even.  Values are
    [spec_float]s of precision 53 and exponent bound 1024. *)
Definition float64_of_decimal (neg : bool) (m : N) (e : Z) : spec_float :=
  match m with
  | N0 => S754_zero neg
  | Npos p =>
      if 0 <=? e then binary_round 53 1024 neg (p * Z.to_pos (10 ^ e))%positive 0
      else
        let '(q, e', l) := SFdiv_core_binary 53 1024 (Zpos p) 0 (10 ^ (- e)) 0 in
        binary_round_aux 53 1024 neg q e' l
  end.

(** [ParseFloat(s, 64)] on a decimal literal, from its documented
    contract: the nearest binary64 value under round-half-even, and a
    range error ([None]) when that is an infinity.  The JSON decoder,
    its only caller here, passes literals its scanner took as JSON
    numbers; the hexadecimal forms and the spelled-out infinities and
    NaN that [ParseFloat] also reads are left out. *)
Definition ParseFloat (s : string) : option spec_float :=
  match readFloat s with
  | None => None
  | Some (neg, m, e) =>
      match float64_of_decimal neg m e with
      | S754_infinity _ => None
      | S754_nan => None
      | f => Some f
      end
  end.

End strconv.

(** * math/big *)

Module big.

(** [MaxBase + 1] is the digit value [nat.scan] gives to a byte that is
    no digit in any base. *)
Definition MaxBase : Z := 62.

Definition MinExp : Z := - 2^31.
Definition MaxExp : Z := 2^31 - 1.

(** [scanSign]: reads an optional sign; fails on an exhausted reader. *)
Definition scanSign (r : string) : option (bool * string) :=
  match r with
  | EmptyString => None
  | String ch r' =>
      if Ascii.eqb ch "-" then Some (true, r')
      else if Ascii.eqb ch "+" then Some (false, r')
      else Some (false, r)
  end.

(** The digit value of a byte in [nat.scan], for a base [b <= 36]. *)
Definition digit_val (ch : ascii) : Z :=
  let c := byte_val ch in
  if (byte_val "0" <=? c) && (c <=? byte_val "9") then c - byte_val "0"
  else if (byte_val "a" <=? c) && (c <=? byte_val "z") then c - byte_val "a" + 10
  else if (byte_val "A" <=? c) && (c <=? byte_val "Z") then c - byte_val "A" + 10
  else MaxBase + 1.

(** The loop of [nat.scan] for base 10.  [z] is the number read so far,
    [count] the number of digits, [dp] the position of the radix point
    (-1 when there is none).  The separator branch of the Go code needs
    base 0 and is never taken.  The result carries the unread rest of
    the input. *)
Fixpoint nat_scan_loop (fracOk : bool) (z : N) (count dp : Z) (r : string)
  : N * Z * Z * string :=
  match r with
  | EmptyString => (z, count, dp, r)
  | String ch r' =>
      if Ascii.eqb ch "." && fracOk then
        nat_scan_loop false z count count r'
      else
        let d1 := digit_val ch in
        if 10 <=? d1 then (z, count, dp, r)
        else nat_scan_loop fracOk (z * 10 + Z.to_N d1)%N (count + 1) dp r'
  end.

(** [nat.scan(r, 10, fracOk)]: the number, the digit count (or, with a
    radix point, minus the number of fractional digits) and the rest;
    [None] is [errNoDigits]. *)
Definition nat_scan (fracOk : bool) (r : string) : option (N * Z * string) :=
  let '(z, count, dp, rest) := nat_scan_loop fracOk 0%N 0 (-1) r in
  if count =? 0 then None
  else Some (z, (if 0 <=? dp then dp - count else count), rest).

(** ** Int *)

(** [Int.scan] followed by the end-of-input test of [setFromScanner]:
    [Int.SetString(s, 10)].  A [big.Int] is a sign and a magnitude with
    no negative zero, that is, a [Z]. *)
Definition Int_SetString (s : string) : option Z :=
  match scanSign s with
  | None => None
  | Some (neg, r) =>
      match nat_scan false r with
      | None => None
      | Some (abs, _, rest) =>
          match rest with
          | EmptyString =>
              Some (if (0 <? Z.of_N abs) && neg then - Z.of_N abs else Z.of_N abs)
          | String _ _ => None
          end
      end
  end.

(** [Int.String] and [Int.MarshalJSON] for a non-nil receiver. *)
Definition Int_String (x : Z) : string := itoa x.

(** ** Float *)

Inductive RoundingMode : Set :=
| ToNearestEven | ToNearestAway | ToZero | AwayFromZero | ToNegativeInf | ToPositiveInf.

Inductive form : Set := zero | finite | inf.

(** A [Float] is [sign * 0.mant * 2^exp]: the mantissa is read as a
    binary fraction whose leading bit is set, so [mant] of bit length
    [n] stands for [mant / 2^n].  Go stores it in 64-bit limbs and may
    keep or drop trailing zero limbs; here [round] leaves it with
    exactly [prec] bits.  [mant] and [exp] are 0 unless [fform] is
    [finite].  The accuracy field is not modelled: nothing reads it. *)
Record Float : Set := mkFloat {
  prec : Z;
  mode : RoundingMode;
  neg : bool;
  fform : form;
  mant : N;
  exp : Z
}.

Definition bitLen (m : N) : Z := Z.of_N (N.size m).

Definition setZero (z : Float) (sign : bool) : Float :=
  mkFloat (prec z) (mode z) sign zero 0 0.

Definition setInf (z : Float) (sign : bool) : Float :=
  mkFloat (prec z) (mode z) sign inf 0 0.

(** [nat.sticky(i)]: whether a bit below position [i] is set. *)
Definition sticky (m : N) (i : Z) : bool := negb (Z.of_N m mod 2 ^ i =? 0).

(** [Float.round(sbit)] for a finite [z]. *)
Definition Float_round (z : Float) (sbit : bool) : Float :=
  match fform z with
  | finite =>
      let bits := bitLen (mant z) in
      if bits <=? prec z then
        mkFloat (prec z) (mode z) (neg z) finite
                (N.shiftl (mant z) (Z.to_N (prec z - bits))) (exp z)
      else
        let r := bits - prec z - 1 in
        let rbit := N.testbit (mant z) (Z.to_N r) in
        let sbit :=
          if negb sbit && (negb rbit || match mode z with ToNearestEven => true | _ => false end)
          then sticky (mant z) r else sbit in
        let m := N.shiftr (mant z) (Z.to_N (r + 1)) in
        let inc :=
          if rbit || sbit then
            match mode z with
            | ToNegativeInf => neg z
            | ToZero => false
            | ToNearestEven => rbit && (sbit || N.odd m)
            | ToNearestAway => rbit
            | AwayFromZero => true
            | ToPositiveInf => negb (neg z)
            end
          else false in
        if inc then
          if (N.succ m =? N.shiftl 1 (Z.to_N (prec z)))%N then
            if MaxExp <=? exp z then setInf z (neg z)
            else mkFloat (prec z) (mode z) (neg z) finite
                         (N.shiftl 1 (Z.to_N (prec z - 1))) (exp z + 1)
          else mkFloat (prec z) (mode z) (neg z) finite (N.succ m) (exp z)
        else mkFloat (prec z) (mode z) (neg z) finite m (exp z)
  | _ => z
  end.

(** [setExpAndRound]: [z] carries the sign and the mantissa. *)
Definition setExpAndRound (z : Float) (m : N) (e : Z) (sbit : bool) : Float :=
  if e <? MinExp then setZero z (neg z)
  else if MaxExp <? e then setInf z (neg z)
  else Float_round (mkFloat (prec z) (mode z) (neg z) finite m e) sbit.

(** [fnorm] of a product: the leading zero bits of [m] in a field of
    [width] bits. *)
Definition fnorm (width : Z) (m : N) : Z := width - bitLen m.

(** [umul]: [z = |x| * |y|] for finite operands. *)
Definition umul (z x y : Float) : Float :=
  let e := exp x + exp y in
  let m := (mant x * mant y)%N in
  setExpAndRound z m (e - fnorm (bitLen (mant x) + bitLen (mant y)) m) false.

(** [uquo]: [z = |x| / |y|] for finite operands.  The dividend gets
    enough low zero bits for the quotient to have at least
    [prec + 64] bits (in Go, [d] extra limbs for a quotient of one limb
    more than the precision); a non-zero remainder is the sticky bit. *)
Definition uquo (z x y : Float) : Float :=
  let n := prec z + 64 in
  let d := Z.max 0 (n - bitLen (mant x) + bitLen (mant y)) in
  let xadj := N.shiftl (mant x) (Z.to_N d) in
  let q := (xadj / mant y)%N in
  let r := (xadj mod mant y)%N in
  let e := exp x - exp y - (d + bitLen (mant x) - bitLen (mant y) - bitLen q) in
  setExpAndRound z q e (negb (r =? 0)%N).

Definition set_prec_if_zero (z x y : Float) : Float :=
  if prec z =? 0 then mkFloat (Z.max (prec x) (prec y)) (mode z) (neg z) (fform z) (mant z) (exp z)
  else z.

Definition is_form (f g : form) : bool :=
  match f, g with
  | zero, zero | finite, finite | inf, inf => true
  | _, _ => false
  end.

(** [z.Mul(x, y)]: panics on zero times infinity. *)
Definition Mul (z x y : Float) : outcome Float :=
  let z := set_prec_if_zero z x y in
  let sign := xorb (neg x) (neg y) in
  let z := mkFloat (prec z) (mode z) sign (fform z) (mant z) (exp z) in
  if is_form (fform x) finite && is_form (fform y) finite then Returns (umul z x y)
  else if is_form (fform x) zero && is_form (fform y) inf
          || is_form (fform x) inf && is_form (fform y) zero
  then Panics "multiplication of zero with infinity"
  else if is_form (fform x) inf || is_form (fform y) inf then Returns (setInf z sign)
  else Returns (setZero z sign).

(** [z.Quo(x, y)]: panics on 0/0 and Inf/Inf. *)
Definition Quo (z x y : Float) : outcome Float :=
  let z := set_prec_if_zero z x y in
  let sign := xorb (neg x) (neg y) in
  let z := mkFloat (prec z) (mode z) sign (fform z) (mant z) (exp z) in
  if is_form (fform x) finite && is_form (fform y) finite then Returns (uquo z x y)
  else if is_form (fform x) zero && is_form (fform y) zero
          || is_form (fform x) inf && is_form (fform y) inf
  then Panics "division of zero by zero or infinity by infinity"
  else if is_form (fform x) zero || is_form (fform y) inf then Returns (setZero z sign)
  else Returns (setInf z sign).

(** [new(Float).SetPrec(prec).SetMode(mode)]. *)
Definition newFloat (p : Z) (m : RoundingMode) : Float := mkFloat p m false zero 0 0.

(** [z.SetUint64(x)]. *)
Definition SetUint64 (z : Float) (x : N) : Float :=
  let p := if prec z =? 0 then 64 else prec z in
  if (x =? 0)%N then mkFloat p (mode z) false zero 0 0
  else Float_round (mkFloat p (mode z) false finite x (bitLen x)) false.

(** [pow5tab] holds 5^0 .. 5^27, the powers that fit 64 bits. *)
Definition pow5tab_max : N := 27.

(** The loop of [pow5], on the bits of [n] from the lowest. *)
Fixpoint pow5_loop (n : positive) (z f : Float) : outcome Float :=
  match n with
  | xH => z' ← Mul z z f; _ ← Mul f f f; Returns z'
  | xO n' => f' ← Mul f f f; pow5_loop n' z f'
  | xI n' => z' ← Mul z z f; f' ← Mul f f f; pow5_loop n' z' f'
  end.

(** [z.pow5(n)]: [z = 5^n], rounded to the precision of [z]. *)
Definition pow5 (z : Float) (n : N) : outcome Float :=
  if (n <=? pow5tab_max)%N then Returns (SetUint64 z (5 ^ n)%N)
  else
    let z := SetUint64 z (5 ^ pow5tab_max)%N in
    let f := SetUint64 (newFloat (prec z + 64) ToNearestEven) 5 in
    match (n - pow5tab_max)%N with
    | N0 => Returns z
    | Npos n' => pow5_loop n' z f
    end.

(** The digits of [scanExponent]. *)
Fixpoint exp_digits (r : string) (acc : string) : string * string :=
  match r with
  | EmptyString => (string_rev acc, r)
  | String ch r' =>
      if is_digit ch then exp_digits r' (String ch acc) else (string_rev acc, r)
  end.

(** [scanExponent(r, true, false)]: exponent, exponent base, rest;
    [None] is an error (no digits, or a value outside int64). *)
Definition scanExponent (r : string) : option (Z * Z * string) :=
  match r with
  | EmptyString => Some (0, 10, r)
  | String ch r1 =>
      let base :=
        if Ascii.eqb ch "e" || Ascii.eqb ch "E" then Some 10
        else if Ascii.eqb ch "p" || Ascii.eqb ch "P" then Some 2
        else None in
      match base with
      | None => Some (0, 10, r)
      | Some b =>
          let '(sign, r2) :=
            match r1 with
            | String c r' =>
                if Ascii.eqb c "+" then (EmptyString, r')
                else if Ascii.eqb c "-" then (String "-" EmptyString, r')
                else (EmptyString, r1)
            | EmptyString => (EmptyString, r1)
            end in
          let '(ds, rest) := exp_digits r2 EmptyString in
          match ds with
          | EmptyString => None
          | String _ _ =>
              match strconv.ParseInt (sign +:+ ds) with
              | None => None
              | Some e => Some (e, b, rest)
              end
          end
      end
  end.

(** [z.scan(r, 10)]: the float and the rest of the input; [None] is an
    error. *)
Definition Float_scan (z : Float) (r : string) : outcome (option (Float * string)) :=
  let p := if prec z =? 0 then 64 else prec z in
  match scanSign r with
  | None => Returns None
  | Some (sign, r1) =>
      match nat_scan true r1 with
      | None => Returns None
      | Some (m, fcount, r2) =>
          match scanExponent r2 with
          | None => Returns None
          | Some (e, ebase, r3) =>
              if (m =? 0)%N then Returns (Some (mkFloat p (mode z) sign zero 0 0, r3))
              else
                let exp2 := bitLen m in
                let exp5 := 0 in
                let '(exp2, exp5) :=
                  if fcount <? 0 then (wrap64 (exp2 + fcount), fcount) else (exp2, exp5) in
                let '(exp2, exp5) :=
                  if ebase =? 10 then (wrap64 (exp2 + e), wrap64 (exp5 + e))
                  else (wrap64 (exp2 + e), exp5) in
                if (MinExp <=? exp2) && (exp2 <=? MaxExp) then
                  let z := mkFloat p (mode z) sign finite m exp2 in
                  if exp5 =? 0 then Returns (Some (Float_round z false, r3))
                  else
                    let p5 := newFloat (prec z + 64) ToNearestEven in
                    if exp5 <? 0 then
                      y ← pow5 p5 (Z.to_N (wrap64 (- exp5) mod 2^64));
                      q ← Quo z z y;
                      Returns (Some (q, r3))
                    else
                      y ← pow5 p5 (Z.to_N (exp5 mod 2^64));
                      q ← Mul z z y;
                      Returns (Some (q, r3))
                else Returns None
          end
      end
  end.

(** [z.Parse(s, 10)]: the infinities are spelled out, anything else is
    scanned and must be consumed entirely. *)
Definition Float_Parse (z : Float) (s : string) : outcome (option Float) :=
  if String.eqb s "Inf" || String.eqb s "inf" then Returns (Some (setInf z false))
  else if String.eqb s "+Inf" || String.eqb s "+inf" then Returns (Some (setInf z false))
  else if String.eqb s "-Inf" || String.eqb s "-inf" then Returns (Some (setInf z true))
  else
    o ← Float_scan z s;
    match o with
    | Some (f, EmptyString) => Returns (Some f)
    | _ => Returns None
    end.

(** [ParseFloat(s, 10, prec, mode)]: [Some] float for a nil error. *)
Definition ParseFloat (s : string) (p : Z) (m : RoundingMode) : outcome (option Float) :=
  Float_Parse (newFloat p m) s.

(** ** Float to text *)

(** A multi-precision decimal [0.mant * 10^exp]: digits without leading
    or trailing zeros. *)
Record decimal : Set := mkDecimal { dmant : list ascii; dexp : Z }.

Definition dlen (d : decimal) : Z := Z.of_nat (length (dmant d)).

(** [d.at(i)]: the digit at [i], ['0'] outside the mantissa. *)
Definition dat (d : decimal) (i : Z) : ascii :=
  if (0 <=? i) && (i <? dlen d) then nth (Z.to_nat i) (dmant d) "0"%char
  else "0"%char.

Fixpoint strip_leading (c : ascii) (l : list ascii) : list ascii :=
  match l with
  | x :: l' => if Ascii.eqb x c then strip_leading c l' else l
  | [] => []
  end.

Definition strip_trailing (c : ascii) (l : list ascii) : list ascii :=
  rev (strip_leading c (rev l)).

(** [trim]: drops trailing zeros; the exponent of 0 is 0. *)
Definition trim (d : decimal) : decimal :=
  let m := strip_trailing "0" (dmant d) in
  mkDecimal m (match m with [] => 0 | _ => dexp d end).

Definition trailingZeroBits (m : N) : Z :=
  match m with
  | N0 => 0
  | Npos p => (fix ntz (p : positive) : Z :=
                 match p with xO p' => 1 + ntz p' | _ => 0 end) p
  end.

(** [d.init(m, shift)]: the exact decimal of [m * 2^shift].  A left
    shift is done in binary; a right shift first drops trailing zero
    bits of [m], and what remains is an exact division by a power of
    two in decimal, [m / 2^s = m * 5^s / 10^s]. *)
Definition decimal_init (m : N) (shift : Z) : decimal :=
  if (m =? 0)%N then mkDecimal [] 0
  else
    let '(m, shift) :=
      if shift <? 0 then
        let s := Z.min (- shift) (trailingZeroBits m) in
        (N.shiftr m (Z.to_N s), shift + s)
      else (m, shift) in
    if 0 <=? shift then
      let s := list_ascii_of_string (utoa (N.shiftl m (Z.to_N shift))) in
      mkDecimal (strip_trailing "0" s) (Z.of_nat (length s))
    else
      let s := list_ascii_of_string (utoa (m * 5 ^ Z.to_N (- shift))%N) in
      mkDecimal (strip_trailing "0" s) (Z.of_nat (length s) + shift).

(** [d.roundDown(n)], [d.roundUp(n)], [shouldRoundUp] and [d.round(n)]. *)
Definition roundDown (d : decimal) (n : Z) : decimal :=
  if (n <? 0) || (dlen d <=? n) then d
  else trim (mkDecimal (take (Z.to_nat n) (dmant d)) (dexp d)).

Definition roundUp (d : decimal) (n : Z) : decimal :=
  if (n <? 0) || (dlen d <=? n) then d
  else
    let p := rev (strip_leading "9" (rev (take (Z.to_nat n) (dmant d)))) in
    match rev p with
    | [] => mkDecimal ["1"%char] (dexp d + 1)
    | c :: front => mkDecimal (rev front ++ [byte_of (byte_val c + 1)]) (dexp d)
    end.

Definition shouldRoundUp (d : decimal) (n : Z) : bool :=
  if Ascii.eqb (dat d n) "5" && (n + 1 =? dlen d) then
    (0 <? n) && Z.odd (byte_val (dat d (n - 1)) - byte_val "0")
  else byte_val "5" <=? byte_val (dat d n).

Definition dround (d : decimal) (n : Z) : decimal :=
  if (n <? 0) || (dlen d <=? n) then d
  else if shouldRoundUp d n then roundUp d n else roundDown d n.

(** The loop of [roundShortest]: [rest] holds the digits of [d] from
    index [i] on. *)
Fixpoint roundShortest_loop (d lower upper : decimal) (inclusive : bool)
    (i : Z) (rest : list ascii) : decimal :=
  match rest with
  | [] => d
  | m :: rest' =>
      let l := dat lower i in
      let u := dat upper i in
      let okdown := negb (Ascii.eqb l m) || inclusive && (i + 1 =? dlen lower) in
      let okup := negb (Ascii.eqb m u)
                  && (inclusive || (byte_val m + 1 <? byte_val u) || (i + 1 <? dlen upper)) in
      if okdown && okup then dround d (i + 1)
      else if okdown then roundDown d (i + 1)
      else if okup then roundUp d (i + 1)
      else roundShortest_loop d lower upper inclusive (i + 1) rest'
  end.

(** [roundShortest(d, x)]: the shortest decimal that rounds to [x] at
    the precision of [x]. *)
Definition roundShortest (d : decimal) (x : Float) : decimal :=
  match dmant d with
  | [] => d
  | _ =>
      let s := bitLen (mant x) - (prec x + 1) in
      let m := if s <? 0 then N.shiftl (mant x) (Z.to_N (- s))
               else N.shiftr (mant x) (Z.to_N s) in
      let e := exp x - bitLen (mant x) + s in
      let lower := decimal_init (m - 1)%N e in
      let upper := decimal_init (m + 1)%N e in
      let inclusive := negb (N.testbit m 1) in
      roundShortest_loop d lower upper inclusive 0 (dmant d)
  end.

(** [fmtE(buf, 'e', prec, d)]: one digit, the fraction, then the
    exponent with its sign and at least two digits. *)
Definition fmtE (p : Z) (d : decimal) : string :=
  let first := match dmant d with c :: _ => c | [] => "0"%char end in
  let more :=
    if 0 <? p then
      let m := Z.min (dlen d) (p + 1) in
      "."%char :: (if 1 <? m then take (Z.to_nat (m - 1)) (drop 1 (dmant d)) else [])
          ++ repeat "0"%char (Z.to_nat (p + 1 - Z.max 1 m))
    else [] in
  let e := match dmant d with [] => 0 | _ => dexp d - 1 end in
  let sign := if e <? 0 then "-"%char else "+"%char in
  let e := Z.abs e in
  string_of_list_ascii (first :: more ++ ["e"%char; sign]
                        ++ (if e <? 10 then ["0"%char] else []))
    +:+ strconv.FormatInt e.

(** [fmtF(buf, prec, d)]: the integer part, then [prec] digits of
    fraction. *)
Definition fmtF (p : Z) (d : decimal) : string :=
  let int :=
    if 0 <? dexp d then
      let m := Z.min (dlen d) (dexp d) in
      take (Z.to_nat m) (dmant d) ++ repeat "0"%char (Z.to_nat (dexp d - m))
    else ["0"%char] in
  let frac :=
    if 0 <? p then
      "."%char :: map (fun i => dat d (dexp d + Z.of_nat i)) (seq 0 (Z.to_nat p))
    else [] in
  string_of_list_ascii (int ++ frac).

(** [x.Append(nil, 'g', -1)], which is [x.MarshalText()] for a non-nil
    receiver. *)
Definition MarshalText (x : Float) : string :=
  let sign := if neg x then "-" else EmptyString in
  match fform x with
  | inf => sign +:+ (if neg x then EmptyString else "+") +:+ "Inf"
  | _ =>
      let d := match fform x with
               | finite => decimal_init (mant x) (exp x - bitLen (mant x))
               | _ => mkDecimal [] 0
               end in
      let d := roundShortest d x in
      let p := dlen d in
      let eprec := 6 in
      let e := dexp d - 1 in
      if (e <? -4) || (eprec <=? e) then
        let p := if dlen d <? p then dlen d else p in
        sign +:+ fmtE (p - 1) d
      else
        let p := if dexp d <? p then dlen d else p in
        sign +:+ fmtF (Z.max (p - dexp d) 0) d
  end.

End big.

(** * Values of the empty interface

    [jsval] in [Add] is an [interface{}]; these are the dynamic types it
    can hold: [*big.Int], [*bigFloat], [bool], [string], and what
    [json.Unmarshal] stores in an empty interface ([nil], [bool],
    [float64], [string], [[]interface{}], [map[string]interface{}]).
    A [float64] is a [spec_float] of precision 53. *)

#[warnings="-register-all"]
Inductive jsval : Type :=
| VBigInt (i : Z)
| VBigFloat (f : big.Float)
| VBool (b : bool)
| VString (s : string)
| VNil
| VFloat64 (f : spec_float)
| VSlice (l : list jsval)
| VMap (m : gmap string jsval).

(** * unicode/utf8 and unicode/utf16 *)

Module utf8.

Definition RuneError : Z := 65533.
Definition MaxRune : Z := 1114111.

Definition is_cont (lo hi : Z) (c : ascii) : bool :=
  (lo <=? byte_val c) && (byte_val c <=? hi).

(** [DecodeRune(p)] for a non-empty [p] whose first byte is [c0]: the
    rune and its width; an invalid or short encoding is
    [(RuneError, 1)]. *)
Definition DecodeRune (c0 : ascii) (rest : string) : Z * nat :=
  let b0 := byte_val c0 in
  let bad := (RuneError, 1%nat) in
  if b0 <? 128 then (b0, 1%nat)
  else if (194 <=? b0) && (b0 <=? 223) then
    match rest with
    | String c1 _ =>
        if is_cont 128 191 c1 then ((b0 mod 32) * 64 + byte_val c1 mod 64, 2%nat) else bad
    | _ => bad
    end
  else if (224 <=? b0) && (b0 <=? 239) then
    let lo := if b0 =? 224 then 160 else 128 in
    let hi := if b0 =? 237 then 159 else 191 in
    match rest with
    | String c1 (String c2 _) =>
        if is_cont lo hi c1 && is_cont 128 191 c2 then
          ((b0 mod 16) * 4096 + (byte_val c1 mod 64) * 64 + byte_val c2 mod 64, 3%nat)
        else bad
    | _ => bad
    end
  else if (240 <=? b0) && (b0 <=? 244) then
    let lo := if b0 =? 240 then 144 else 128 in
    let hi := if b0 =? 244 then 143 else 191 in
    match rest with
    | String c1 (String c2 (String c3 _)) =>
        if is_cont lo hi c1 && is_cont 128 191 c2 && is_cont 128 191 c3 then
          ((b0 mod 8) * 262144 + (byte_val c1 mod 64) * 4096
           + (byte_val c2 mod 64) * 64 + byte_val c3 mod 64, 4%nat)
        else bad
    | _ => bad
    end
  else bad.

(** [AppendRune(nil, r)]. *)
Definition EncodeRune (r : Z) : list ascii :=
  let r := if (r <? 0) || (MaxRune <? r) || ((55296 <=? r) && (r <=? 57343))
           then RuneError else r in
  if r <? 128 then [byte_of r]
  else if r <? 2048 then [byte_of (192 + r / 64); byte_of (128 + r mod 64)]
  else if r <? 65536 then
    [byte_of (224 + r / 4096); byte_of (128 + (r / 64) mod 64); byte_of (128 + r mod 64)]
  else
    [byte_of (240 + r / 262144); byte_of (128 + (r / 4096) mod 64);
     byte_of (128 + (r / 64) mod 64); byte_of (128 + r mod 64)].

End utf8.

Module utf16.

Definition IsSurrogate (r : Z) : bool := (55296 <=? r) && (r <? 57344).

Definition DecodeRune (r1 r2 : Z) : Z :=
  if (55296 <=? r1) && (r1 <? 56320) && (56320 <=? r2) && (r2 <? 57344)
  then (r1 - 55296) * 1024 + (r2 - 56320) + 65536
  else utf8.RuneError.

End utf16.

(** * encoding/json *)

Module json.

Definition isSpace (c : ascii) : bool :=
  Ascii.eqb c " " || (byte_val c =? 9) || (byte_val c =? 13) || (byte_val c =? 10).

Definition maxNestingDepth : Z := 10000.

Definition hex_val (c : ascii) : option Z :=
  let b := byte_val c in
  if (byte_val "0" <=? b) && (b <=? byte_val "9") then Some (b - byte_val "0")
  else if (byte_val "a" <=? b) && (b <=? byte_val "f") then Some (b - byte_val "a" + 10)
  else if (byte_val "A" <=? b) && (b <=? byte_val "F") then Some (b - byte_val "A" + 10)
  else None.

(** [getu4(s)]: the rune of a [\uXXXX] at the start of [s], or -1. *)
Definition getu4 (s : string) : Z :=
  match s with
  | String b (String u (String h1 (String h2 (String h3 (String h4 _))))) =>
      if Ascii.eqb b "\" && Ascii.eqb u "u" then
        match hex_val h1, hex_val h2, hex_val h3, hex_val h4 with
        | Some a, Some b, Some c, Some d => ((a * 16 + b) * 16 + c) * 16 + d
        | _, _, _, _ => -1
        end
      else -1
  | _ => -1
  end.

(** The loop of [unquoteBytes] over the text between the quotes.  A
    step consumes one unit (a byte, an escape, a surrogate pair, a
    UTF-8 sequence); [skip] counts the bytes of the current unit that
    are still to be passed over.  [None] is a malformed literal. *)
Fixpoint unquote_loop (skip : nat) (s : string) : option (list ascii) :=
  match s with
  | EmptyString => Some []
  | String c s' =>
      match skip with
      | S k => unquote_loop k s'
      | O =>
          if Ascii.eqb c "\" then
            match s' with
            | EmptyString => None
            | String e _ =>
                let simple (b : Z) := option_map (cons (byte_of b)) (unquote_loop 1 s') in
                if Ascii.eqb e dquote || Ascii.eqb e "\" || Ascii.eqb e "/" || Ascii.eqb e "'"
                then simple (byte_val e)
                else if Ascii.eqb e "b" then simple 8
                else if Ascii.eqb e "f" then simple 12
                else if Ascii.eqb e "n" then simple 10
                else if Ascii.eqb e "r" then simple 13
                else if Ascii.eqb e "t" then simple 9
                else if Ascii.eqb e "u" then
                  let rr := getu4 s in
                  if rr <? 0 then None
                  else if utf16.IsSurrogate rr then
                    let rr1 := getu4 (String.substring 6 (String.length s) s) in
                    let dec := utf16.DecodeRune rr rr1 in
                    if negb (dec =? utf8.RuneError) then
                      option_map (app (utf8.EncodeRune dec)) (unquote_loop 11 s')
                    else
                      option_map (app (utf8.EncodeRune utf8.RuneError)) (unquote_loop 5 s')
                  else option_map (app (utf8.EncodeRune rr)) (unquote_loop 5 s')
                else None
            end
          else if Ascii.eqb c dquote || (byte_val c <? 32) then None
          else if byte_val c <? 128 then option_map (cons c) (unquote_loop 0 s')
          else
            let '(rr, size) := utf8.DecodeRune c s' in
            option_map (app (utf8.EncodeRune rr)) (unquote_loop (size - 1) s')
      end
  end.

(** [unquote(s)]: [s] is a quoted literal. *)
Definition unquote (s : string) : option string :=
  match s with
  | String q body =>
      match string_rev body with
      | String q' ydob =>
          if Ascii.eqb q dquote && Ascii.eqb q' dquote then
            option_map string_of_list_ascii (unquote_loop 0 (string_rev ydob))
          else None
      | EmptyString => None
      end
  | EmptyString => None
  end.

(** [convertNumber]: a number literal as a [float64]. *)
Definition convertNumber (s : string) : option spec_float := strconv.ParseFloat s.

(** [literalInterface]: the value of a literal the scanner accepted,
    and whether converting it failed (a number outside [float64]). *)
Definition literalInterface (item : string) : jsval * bool :=
  match item with
  | String c _ =>
      if Ascii.eqb c "n" then (VNil, false)
      else if Ascii.eqb c "t" then (VBool true, false)
      else if Ascii.eqb c "f" then (VBool false, false)
      else if Ascii.eqb c dquote then
        match unquote item with
        | Some s => (VString s, false)
        | None => (VNil, true)
        end
      else
        match convertNumber item with
        | Some f => (VFloat64 f, false)
        | None => (VNil, true)
        end
  | EmptyString => (VNil, true)
  end.

(** The states of the scanner. *)
Inductive sstate : Set :=
| stateBeginValueOrEmpty | stateBeginValue | stateBeginStringOrEmpty | stateBeginString
| stateEndValue | stateEndTop
| stateInString | stateInStringEsc
| stateInStringEscU | stateInStringEscU1 | stateInStringEscU12 | stateInStringEscU123
| stateNeg | state1 | state0 | stateDot | stateDot0 | stateE | stateESign | stateE0
| stateT | stateTr | stateTru | stateF | stateFa | stateFal | stateFals
| stateN | stateNu | stateNul
| stateError.

(** The parse stack.  The scanner keeps [parseObjectKey],
    [parseObjectValue] and [parseArrayValue]; the decoder walks the same
    nesting and builds the composite, which is kept here in the stack
    entry. *)
Inductive frame : Type :=
| parseObjectKey (m : gmap string jsval) (key : option string)
| parseObjectValue (m : gmap string jsval) (key : string)
| parseArrayValue (elems : list jsval).

(** Scanner and decoder state: [lit] is the text of the literal being
    read (last byte first), [top] the decoded top-level value,
    [savedError] whether the decoder saved an error. *)
Record decodeState : Type := mkState {
  step : sstate;
  parseState : list frame;
  lit : string;
  top : option jsval;
  savedError : bool;
  endTop : bool
}.

Definition set_step (d : decodeState) (s : sstate) : decodeState :=
  mkState s (parseState d) (lit d) (top d) (savedError d) (endTop d).

Definition error (d : decodeState) : decodeState := set_step d stateError.

(** Appends a byte to the current literal. *)
Definition take_byte (d : decodeState) (c : ascii) (s : sstate) : decodeState :=
  mkState s (parseState d) (String c (lit d)) (top d) (savedError d) (endTop d).

(** Hands a finished value to the enclosing composite, or to the
    top-level. *)
Definition store (d : decodeState) (v : jsval) (err : bool) : decodeState :=
  let e := savedError d || err in
  match parseState d with
  | [] => mkState (step d) [] EmptyString (Some v) e (endTop d)
  | parseArrayValue elems :: ps =>
      mkState (step d) (parseArrayValue (elems ++ [v]) :: ps) EmptyString (top d) e (endTop d)
  | parseObjectValue m key :: ps =>
      mkState (step d) (parseObjectValue (<[key := v]> m) key :: ps) EmptyString (top d) e (endTop d)
  | parseObjectKey m _ :: ps =>
      match v with
      | VString key =>
          mkState (step d) (parseObjectKey m (Some key) :: ps) EmptyString (top d) e (endTop d)
      | _ => error d
      end
  end.

(** The current literal is complete. *)
Definition end_literal (d : decodeState) : decodeState :=
  let '(v, err) := literalInterface (string_rev (lit d)) in
  store d v err.

Definition pushParseState (d : decodeState) (f : frame) (s : sstate) : decodeState :=
  let ps := f :: parseState d in
  if Z.of_nat (length ps) <=? maxNestingDepth
  then mkState s ps (lit d) (top d) (savedError d) (endTop d)
  else error d.

(** [popParseState], with the finished composite [v]. *)
Definition popParseState (d : decodeState) (v : jsval) : decodeState :=
  match parseState d with
  | [] => error d
  | _ :: ps =>
      let d := store (mkState (step d) ps (lit d) (top d) (savedError d) (endTop d)) v false in
      match ps with
      | [] => mkState stateEndTop (parseState d) (lit d) (top d) (savedError d) true
      | _ => set_step d stateEndValue
      end
  end.

Definition do_stateEndTop (d : decodeState) (c : ascii) : decodeState :=
  if isSpace c then d else error d.

Definition do_stateEndValue (d : decodeState) (c : ascii) : decodeState :=
  match parseState d with
  | [] =>
      do_stateEndTop (mkState stateEndTop [] (lit d) (top d) (savedError d) true) c
  | f :: ps =>
      if isSpace c then set_step d stateEndValue
      else
        match f with
        | parseObjectKey m key =>
            match key with
            | Some k =>
                if Ascii.eqb c ":" then
                  mkState stateBeginValue (parseObjectValue m k :: ps)
                          (lit d) (top d) (savedError d) (endTop d)
                else error d
            | None => error d
            end
        | parseObjectValue m _ =>
            if Ascii.eqb c "," then
              mkState stateBeginString (parseObjectKey m None :: ps)
                      (lit d) (top d) (savedError d) (endTop d)
            else if Ascii.eqb c "}" then popParseState d (VMap m)
            else error d
        | parseArrayValue elems =>
            if Ascii.eqb c "," then set_step d stateBeginValue
            else if Ascii.eqb c "]" then popParseState d (VSlice elems)
            else error d
        end
  end.

Definition do_stateBeginValue (d : decodeState) (c : ascii) : decodeState :=
  if isSpace c then d
  else if Ascii.eqb c "{" then pushParseState d (parseObjectKey ∅ None) stateBeginStringOrEmpty
  else if Ascii.eqb c "[" then pushParseState d (parseArrayValue []) stateBeginValueOrEmpty
  else if Ascii.eqb c dquote then take_byte d c stateInString
  else if Ascii.eqb c "-" then take_byte d c stateNeg
  else if Ascii.eqb c "0" then take_byte d c state0
  else if Ascii.eqb c "t" then take_byte d c stateT
  else if Ascii.eqb c "f" then take_byte d c stateF
  else if Ascii.eqb c "n" then take_byte d c stateN
  else if (byte_val "1" <=? byte_val c) && (byte_val c <=? byte_val "9") then take_byte d c state1
  else error d.

Definition do_stateBeginString (d : decodeState) (c : ascii) : decodeState :=
  if isSpace c then d
  else if Ascii.eqb c dquote then take_byte d c stateInString
  else error d.

Definition is_hex (c : ascii) : bool :=
  match hex_val c with Some _ => true | None => false end.

(** A number ends at the first byte that cannot continue it; that byte
    is then handled by [stateEndValue]. *)
Definition end_number (d : decodeState) (c : ascii) : decodeState :=
  do_stateEndValue (end_literal d) c.

Definition do_state0 (d : decodeState) (c : ascii) : decodeState :=
  if Ascii.eqb c "." then take_byte d c stateDot
  else if Ascii.eqb c "e" || Ascii.eqb c "E" then take_byte d c stateE
  else end_number d c.

Definition do_stateESign (d : decodeState) (c : ascii) : decodeState :=
  if is_digit c then take_byte d c stateE0 else error d.

(** One byte through the scanner: [scan.step(scan, c)]. *)
Definition scan_step (d : decodeState) (c : ascii) : decodeState :=
  let expect (want : ascii) (next : sstate) :=
    if Ascii.eqb c want then take_byte d c next else error d in
  let last (want : ascii) :=
    if Ascii.eqb c want then end_literal (take_byte d c stateEndValue) else error d in
  match step d with
  | stateBeginValueOrEmpty =>
      if isSpace c then d
      else if Ascii.eqb c "]" then do_stateEndValue d c
      else do_stateBeginValue d c
  | stateBeginValue => do_stateBeginValue d c
  | stateBeginStringOrEmpty =>
      if isSpace c then d
      else if Ascii.eqb c "}" then
        match parseState d with
        | parseObjectKey m _ :: ps =>
            do_stateEndValue
              (mkState (step d) (parseObjectValue m EmptyString :: ps)
                       (lit d) (top d) (savedError d) (endTop d)) c
        | _ => error d
        end
      else do_stateBeginString d c
  | stateBeginString => do_stateBeginString d c
  | stateEndValue => do_stateEndValue d c
  | stateEndTop => do_stateEndTop d c
  | stateInString =>
      if Ascii.eqb c dquote then end_literal (take_byte d c stateEndValue)
      else if Ascii.eqb c "\" then take_byte d c stateInStringEsc
      else if byte_val c <? 32 then error d
      else take_byte d c stateInString
  | stateInStringEsc =>
      if Ascii.eqb c "b" || Ascii.eqb c "f" || Ascii.eqb c "n" || Ascii.eqb c "r"
         || Ascii.eqb c "t" || Ascii.eqb c "\" || Ascii.eqb c "/" || Ascii.eqb c dquote
      then take_byte d c stateInString
      else if Ascii.eqb c "u" then take_byte d c stateInStringEscU
      else error d
  | stateInStringEscU => if is_hex c then take_byte d c stateInStringEscU1 else error d
  | stateInStringEscU1 => if is_hex c then take_byte d c stateInStringEscU12 else error d
  | stateInStringEscU12 => if is_hex c then take_byte d c stateInStringEscU123 else error d
  | stateInStringEscU123 => if is_hex c then take_byte d c stateInString else error d
  | stateNeg =>
      if Ascii.eqb c "0" then take_byte d c state0
      else if (byte_val "1" <=? byte_val c) && (byte_val c <=? byte_val "9")
      then take_byte d c state1
      else error d
  | state1 => if is_digit c then take_byte d c state1 else do_state0 d c
  | state0 => do_state0 d c
  | stateDot => if is_digit c then take_byte d c stateDot0 else error d
  | stateDot0 =>
      if is_digit c then take_byte d c stateDot0
      else if Ascii.eqb c "e" || Ascii.eqb c "E" then take_byte d c stateE
      else end_number d c
  | stateE =>
      if Ascii.eqb c "+" || Ascii.eqb c "-" then take_byte d c stateESign
      else do_stateESign d c
  | stateESign => do_stateESign d c
  | stateE0 => if is_digit c then take_byte d c stateE0 else end_number d c
  | stateT => expect "r"%char stateTr
  | stateTr => expect "u"%char stateTru
  | stateTru => last "e"%char
  | stateF => expect "a"%char stateFa
  | stateFa => expect "l"%char stateFal
  | stateFal => expect "s"%char stateFals
  | stateFals => last "e"%char
  | stateN => expect "u"%char stateNu
  | stateNu => expect "l"%char stateNul
  | stateNul => last "l"%char
  | stateError => d
  end.

Fixpoint scan_bytes (d : decodeState) (data : string) : decodeState :=
  match data with
  | EmptyString => d
  | String c data' => scan_bytes (scan_step d c) data'
  end.

Definition is_error (d : decodeState) : bool :=
  match step d with stateError => true | _ => false end.

(** [scan.eof()]: the input is complete when the top-level value has
    ended, possibly once a closing space has been fed. *)
Definition eof (d : decodeState) : option decodeState :=
  if is_error d then None
  else if endTop d then Some d
  else
    let d := scan_step d " " in
    if endTop d && negb (is_error d) then Some d else None.

(** [Unmarshal(data, &v)] for a nil [v] of type [interface{}]: the
    decoded value when the error is nil. *)
Definition Unmarshal (data : string) : option jsval :=
  match eof (scan_bytes (mkState stateBeginValue [] EmptyString None false false) data) with
  | Some d => if savedError d then None else top d
  | None => None
  end.

(** [Valid(data)]: the scanner accepts [data]. *)
Definition Valid (data : string) : bool :=
  match eof (scan_bytes (mkState stateBeginValue [] EmptyString None false false) data) with
  | Some _ => true
  | None => false
  end.

End json.

(** * The program *)

(** [type typedValues map[string][]interface{}].  A Go map value is
    either nil or an allocated table; [newTypedValues] allocates. *)
Inductive typedValues : Type :=
| nilValues
| Values (m : gmap string (list jsval)).

Definition newTypedValues : typedValues := Values ∅.

(** [v[key]]: the nil slice when the key is absent (or the map nil). *)
Definition index (v : typedValues) (key : string) : list jsval :=
  match v with
  | nilValues => []
  | Values m => default [] (m !! key)
  end.

(** [v[key] = x]: assigning into a nil map panics. *)
Definition assign (v : typedValues) (key : string) (x : list jsval) : outcome typedValues :=
  match v with
  | nilValues => Panics "assignment to entry in nil map"
  | Values m => Returns (Values (<[key := x]> m))
  end.

(** [type bigFloat big.Float], with [MarshalJSON] handing over to
    [MarshalText]; its error is always nil. *)
Definition bigFloat : Set := big.Float.

Definition MarshalJSON (b : bigFloat) : string := big.MarshalText b.

(** The [if]/[else if] chain of [Add] that computes [jsval]. *)
Definition coercion (value : string) : outcome jsval :=
  match big.Int_SetString value with
  | Some ival => Returns (VBigInt ival)
  | None =>
      r ← big.ParseFloat value 256 big.ToNearestEven;
      match r with
      | Some fval => Returns (VBigFloat fval)
      | None =>
          match strconv.ParseBool value with
          | Some bval => Returns (VBool bval)
          | None =>
              match json.Unmarshal value with
              | Some decoded => Returns decoded
              | None => Returns (VString value)
              end
          end
      end
  end.

(** [func (v typedValues) Add(key, value string)]. *)
Definition Add (v : typedValues) (key value : string) : outcome typedValues :=
  jsval ← coercion value;
  assign v key (index v key ++ [jsval]).

(** ** The five representations, as the specification words them *)

Inductive tag : Set := TagInteger | TagDecimal | TagBoolean | TagJSON | TagString.

(** The position of a tag in the priority order. *)
Definition priority (t : tag) : nat :=
  match t with
  | TagInteger => 1 | TagDecimal => 2 | TagBoolean => 3 | TagJSON => 4 | TagString => 5
  end.

(** The parser of a tag accepts [value] and yields [x]. *)
Definition accepts (t : tag) (value : string) (x : jsval) : Prop :=
  match t with
  | TagInteger => ∃ i, big.Int_SetString value = Some i ∧ x = VBigInt i
  | TagDecimal =>
      ∃ f, big.ParseFloat value 256 big.ToNearestEven = Returns (Some f) ∧ x = VBigFloat f
  | TagBoolean => ∃ b, strconv.ParseBool value = Some b ∧ x = VBool b
  | TagJSON => json.Unmarshal value = Some x
  | TagString => x = VString value
  end.

(** First match wins: [t] accepts, and no tag before it does. *)
Definition first_match (value : string) (t : tag) (x : jsval) : Prop :=
  accepts t value x ∧
  ∀ t', (priority t' < priority t)%nat → ¬ ∃ x', accepts t' value x'.

(** The arm of the chain that assigns [jsval]. *)
Definition chosen_tag (value : string) : tag :=
  match big.Int_SetString value with
  | Some _ => TagInteger
  | None =>
      match big.ParseFloat value 256 big.ToNearestEven with
      | Returns (Some _) => TagDecimal
      | _ =>
          match strconv.ParseBool value with
          | Some _ => TagBoolean
          | None =>
              match json.Unmarshal value with
              | Some _ => TagJSON
              | None => TagString
              end
          end
      end
  end.

(** The integer grammar of the specification: an optional sign, then
    one or more base-10 digits and nothing else. *)
Definition int_literal (s : string) : bool :=
  match s with
  | EmptyString => false
  | String c s' =>
      if Ascii.eqb c "-" || Ascii.eqb c "+"
      then all_digits s' && negb (String.eqb s' EmptyString)
      else all_digits s
  end.

(** The integer such a literal denotes. *)
Definition int_literal_value (s : string) : Z :=
  match s with
  | EmptyString => 0
  | String c s' =>
      if Ascii.eqb c "-" then - Z.of_N (digits_value 0 s')
      else if Ascii.eqb c "+" then Z.of_N (digits_value 0 s')
      else Z.of_N (digits_value 0 s)
  end.

(** A float that is not a zero: an infinity, or finite with a non-zero
    mantissa and a positive exponent (a value of at least 1/2 * 2). *)
Definition at_least_one (f : big.Float) : Prop :=
  0 < big.prec f ∧
  (big.fform f = big.inf ∨
   (big.fform f = big.finite ∧ big.mant f ≠ 0%N ∧ 1 <= big.exp f)).

(** ** Particular values used below *)

(** The [float64] values 1 and 2: mantissa [2^52], exponents -52 and -51. *)
Definition float64_1 : spec_float := S754_finite false 4503599627370496 (-52).
Definition float64_2 : spec_float := S754_finite false 4503599627370496 (-51).

(** The 256-bit float 1e10: [10^10] is a bit below [2^34]. *)
Definition float_1e10 : big.Float :=
  big.mkFloat 256 big.ToNearestEven false big.finite (10 ^ 10 * 2 ^ 222) 34.

Definition float_inf (sign : bool) : big.Float :=
  big.mkFloat 256 big.ToNearestEven sign big.inf 0 0.

(** The four occurrences of the end-to-end example of the
    specification, recorded one after the other. *)
Definition record_example : outcome typedValues :=
  v ← Add newTypedValues "port" "8080";
  v ← Add v "debug" "true";
  v ← Add v "tags" "a";
  Add v "tags" "b".

(** A quoted JSON string literal. *)
Definition quoted (s : string) : string :=
  String dquote (s +:+ String dquote EmptyString).

(** * The recorders and the driver *)

(** ** Sequences of calls *)

(** The value [Add] stores for [value]; the chain always returns
    ([coercion_coerced]). *)
Definition coerced (value : string) : jsval :=
  match coercion value with
  | Returns x => x
  | Panics _ => VString value
  end.

(** The reader hands every key/value occurrence to [Add], in the order
    of the input. *)
Fixpoint AddAll (v : typedValues) (pairs : list (string * string)) : outcome typedValues :=
  match pairs with
  | [] => Returns v
  | (key, value) :: rest => v' ← Add v key value; AddAll v' rest
  end.

(** The values handed over under [key], in order. *)
Fixpoint values_of (key : string) (pairs : list (string * string)) : list string :=
  match pairs with
  | [] => []
  | (k, value) :: rest =>
      if String.eqb k key then value :: values_of key rest else values_of key rest
  end.

(** What [json.Unmarshal] can put into an empty interface, at any
    depth: nil, booleans, [float64]s, strings, slices and maps of
    such. *)
#[warnings="-register-all"]
Inductive json_value : jsval → Prop :=
| json_nil : json_value VNil
| json_bool b : json_value (VBool b)
| json_float64 f : json_value (VFloat64 f)
| json_string s : json_value (VString s)
| json_slice l : Forall json_value l → json_value (VSlice l)
| json_map m : (∀ k x, m !! k = Some x → json_value x) → json_value (VMap m).

(** The invariant of the decoder: every value it holds is such a
    value. *)
Definition frame_ok (f : json.frame) : Prop :=
  match f with
  | json.parseObjectKey m _ => ∀ k x, m !! k = Some x → json_value x
  | json.parseObjectValue m _ => ∀ k x, m !! k = Some x → json_value x
  | json.parseArrayValue elems => Forall json_value elems
  end.

Definition decoder_ok (d : json.decodeState) : Prop :=
  Forall frame_ok (json.parseState d)
  ∧ ∀ x, json.top d = Some x → json_value x.

(** The scanner is reading a number at the top level. *)
Definition in_number (st : json.sstate) (d : json.decodeState) : Prop :=
  json.step d = st ∧ json.parseState d = [] ∧ json.endTop d = false.

(** The scanner fed a list of bytes. *)
Definition scan_list (d : json.decodeState) (l : list ascii) : json.decodeState :=
  fold_left json.scan_step l d.

(** Reading [l] takes the scanner from state [a] to state [b], inside a
    top-level number. *)
Definition run (a : json.sstate) (l : list ascii) (b : json.sstate) : Prop :=
  ∀ d, in_number a d → in_number b (scan_list d l).

(** The states in which a number may end. *)
Definition number_end (st : json.sstate) : Prop :=
  st = json.state0 ∨ st = json.state1 ∨ st = json.stateDot0 ∨ st = json.stateE0.

Definition digits (l : list ascii) : Prop := Forall (λ c, is_digit c = true) l.

(** A decimal mantissa as [math/big] keeps it: digits, the first one
    not zero, and exponent 0 when there is none. *)
Definition decimal_ok (d : big.decimal) : Prop :=
  digits (big.dmant d)
  ∧ match big.dmant d with
    | [] => big.dexp d = 0
    | c :: _ => c ≠ "0"%char
    end.

(** ** go-ini: the reader's interface and the raw recorder *)

Module ini.

Inductive KeyCase : Set := CaseSensitive | LowerCase | UpperCase.

Record Reader : Set := mkReader {
  Separator : string;
  Casing : KeyCase;
  True : string
}.

(** [type Values map[string][]string], the recorder that keeps the
    text. *)
Inductive Values : Type :=
| nilValues
| mkValues (m : gmap string (list string)).

(** [func (v Values) Add(key, value string)]:
    [v[key] = append(v[key], value)]. *)
Definition Values_Add (v : Values) (key value : string) : outcome Values :=
  match v with
  | nilValues => Panics "assignment to entry in nil map"
  | mkValues m => Returns (mkValues (<[key := default [] (m !! key) ++ [value]]> m))
  end.

End ini.

(** [ini.Recorder]: anything with an [Add]. *)
Class Recorder (A : Type) := recorder_Add : A → string → string → outcome A.

Global Instance typedValues_Recorder : Recorder typedValues := Add.
Global Instance Values_Recorder : Recorder ini.Values := ini.Values_Add.

(** A value of the interface type [ini.Recorder] in this program. *)
Inductive recorder : Type :=
| Typed (v : typedValues)
| Raw (v : ini.Values).

Definition dest_Add (dest : recorder) (key value : string) : outcome recorder :=
  match dest with
  | Typed v => v' ← recorder_Add v key value; Returns (Typed v')
  | Raw v => v' ← recorder_Add v key value; Returns (Raw v')
  end.

(** The calls of one pass of the reader over its input. *)
Fixpoint record (dest : recorder) (pairs : list (string * string)) : outcome recorder :=
  match pairs with
  | [] => Returns dest
  | (key, value) :: rest => dest' ← dest_Add dest key value; record dest' rest
  end.

(** [newRawValues] and [newTypedValues]. *)
Definition newRawValues : recorder := Raw (ini.mkValues ∅).

Definition newTypedRecorder : recorder := Typed newTypedValues.

(** ** The driver

    What lies outside the program is a parameter: the INI reader (for a
    configuration and an input, the key/value occurrences it hands to
    the recorder in order, whether it ended without error, and the
    input it left unread), the file system, and the JSON encoder (the
    document, or an error). *)
Record environment : Type := mkEnvironment {
  ini_Read : ini.Reader → string → list (string * string) * bool * string;
  os_Open : string → option string;
  Encode : bool → recorder → option string
}.

(** The command line after [flag.Parse]. *)
Record flags : Set := mkFlags {
  flag_s : string;
  flag_C : string;
  flag_t : string;
  flag_m : bool;
  flag_c : bool;
  flag_r : bool;
  flag_args : list string
}.

(** How the process ends: [main] returns, or one of its [log.Fatalf]. *)
Inductive status : Set :=
| Exit
| FatalCasing (casing : string)
| FatalParse (path : string)
| FatalEncode (path : string)
| FatalEncodeFinal.

(** [read(dest, rd, path)]: the recorder after the reader's calls,
    whether the error is nil, and what is left of standard input. *)
Definition read (E : environment) (dest : recorder) (rd : ini.Reader) (path : string)
    (stdin : string) : outcome (recorder * bool * string) :=
  if String.eqb path "-" then
    let '(pairs, ok, rest) := ini_Read E rd stdin in
    dest' ← record dest pairs; Returns (dest', ok, rest)
  else
    match os_Open E path with
    | None => Returns (dest, false, stdin)
    | Some contents =>
        let '(pairs, ok, _) := ini_Read E rd contents in
        dest' ← record dest pairs; Returns (dest', ok, stdin)
    end.

(** The loop of [main] over the arguments and what follows it: [out]
    holds the documents written so far. *)
Fixpoint main_loop (E : environment) (rd : ini.Reader) (merge compact : bool)
    (newValues : recorder) (values : recorder) (args : list string) (stdin : string)
    (out : list string) : outcome (list string * status) :=
  match args with
  | [] =>
      if negb merge then Returns (out, Exit)
      else
        match Encode E (negb compact) values with
        | Some doc => Returns (out ++ [doc], Exit)
        | None => Returns (out, FatalEncodeFinal)
        end
  | path :: rest =>
      r ← read E values rd path stdin;
      let '(values, ok, stdin) := r in
      if negb ok then Returns (out, FatalParse path)
      else if merge then main_loop E rd merge compact newValues values rest stdin out
      else
        match Encode E (negb compact) values with
        | None => Returns (out, FatalEncode path)
        | Some doc =>
            main_loop E rd merge compact newValues newValues rest stdin (out ++ [doc])
        end
  end.

(** [main], from the parsed flags on: the documents written to
    standard output and how the process ends. *)
Definition main (E : environment) (fl : flags) (stdin : string)
  : outcome (list string * status) :=
  let newValues := if flag_r fl then newRawValues else newTypedRecorder in
  let args := match flag_args fl with [] => ["-"] | _ => flag_args fl end in
  let casing :=
    if String.eqb (flag_C fl) "l" then Some ini.LowerCase
    else if String.eqb (flag_C fl) "u" then Some ini.UpperCase
    else if String.eqb (flag_C fl) "-" then Some ini.CaseSensitive
    else None in
  match casing with
  | None => Returns ([], FatalCasing (flag_C fl))
  | Some c =>
      let rd := ini.mkReader (flag_s fl) c (flag_t fl) in
      main_loop E rd (flag_m fl) (flag_c fl) newValues newValues args stdin []
  end.

(** The key/value occurrences of all the arguments in order, up to the
    first input that cannot be read, with that input's path. *)
Fixpoint gather (E : environment) (rd : ini.Reader) (args : list string) (stdin : string)
  : list (string * string) * option string :=
  match args with
  | [] => ([], None)
  | path :: rest =>
      let '(pairs, ok, stdin') :=
        if String.eqb path "-" then ini_Read E rd stdin
        else match os_Open E path with
             | None => ([], false, stdin)
             | Some contents =>
                 let '(pairs, ok, _) := ini_Read E rd contents in (pairs, ok, stdin)
             end in
      if ok then
        let '(more, failed) := gather E rd rest stdin' in (pairs ++ more, failed)
      else (pairs, Some path)
  end.

(** A recorder that is not the nil map. *)
Definition allocated (dest : recorder) : Prop :=
  match dest with
  | Typed (Values _) => True
  | Raw (ini.mkValues _) => True
  | _ => False
  end.

(** The spellings [strconv.ParseBool] reads as [b], without the two
    that are integers. *)
Definition bool_spellings (b : bool) : list string :=
  if b then ["t"; "T"; "TRUE"; "true"; "True"]
  else ["f"; "F"; "FALSE"; "false"; "False"].

(** What the decimal parser makes of an integer literal: the magnitude
    as mantissa, its bit length as exponent, rounded to 256 bits. *)
Definition float_of_int_literal (s : string) : big.Float :=
  let sign := match s with String c _ => Ascii.eqb c "-" | EmptyString => false end in
  let m := Z.abs_N (int_literal_value s) in
  if (m =? 0)%N then big.mkFloat 256 big.ToNearestEven sign big.zero 0 0
  else big.Float_round
         (big.mkFloat 256 big.ToNearestEven sign big.finite m (big.bitLen m)) false.

(** A float of precision [p] as the parser leaves it: a finite value
    has a mantissa of exactly [p] bits and an exponent an int32 holds;
    a zero or an infinity has neither. *)
Definition float_wf (p : Z) (f : big.Float) : Prop :=
  big.prec f = p
  ∧ match big.fform f with
    | big.finite =>
        big.bitLen (big.mant f) = p ∧ big.MinExp <= big.exp f <= big.MaxExp
    | _ => big.mant f = 0%N ∧ big.exp f = 0
    end.

(** * Properties of the library models *)

(** Closed facts are settled by running the definitions. *)
Ltac by_computation :=
  lazymatch goal with
  | |- _ ∧ _ => split; [vm_compute; reflexivity | by_computation]
  | |- _ => vm_compute; reflexivity
  end.

Section BytesAndDigits.

Lemma byte_val_byte_of z : 0 <= z < 256 → byte_val (byte_of z) = z.
Proof.
  intros Hz. unfold byte_val, byte_of.
  rewrite N_ascii_embedding; lia.
Qed.

Lemma byte_val_range c : 0 <= byte_val c < 256.
Proof.
  unfold byte_val. pose proof (N_ascii_bounded c). lia.
Qed.

Lemma is_digit_digit_val c :
  is_digit c = true → big.digit_val c = Z.of_N (digit_of c) ∧ big.digit_val c < 10.
Proof.
  unfold is_digit, big.digit_val, digit_of. intros H. rewrite H.
  apply andb_true_iff in H as [H1 H2].
  apply Z.leb_le in H1, H2.
  change (byte_val "0") with 48 in *. change (byte_val "9") with 57 in *.
  lia.
Qed.

Lemma not_digit_digit_val c : is_digit c = false → 10 <= big.digit_val c.
Proof.
  unfold is_digit, big.digit_val. intros H. rewrite H.
  change (byte_val "a") with 97. change (byte_val "z") with 122.
  change (byte_val "A") with 65. change (byte_val "Z") with 90.
  unfold big.MaxBase.
  repeat match goal with
         | |- context [ if ?b then _ else _ ] => destruct b eqn:?
         end; try lia;
  repeat match goal with
         | H : (_ && _) = true |- _ => apply andb_true_iff in H as [? ?]
         | H : (_ <=? _) = true |- _ => apply Z.leb_le in H
         end; lia.
Qed.

End BytesAndDigits.

(** ** Scanning and printing integers *)

Section Integers.

(** On a string of digits the scanner reads everything. *)
Lemma nat_scan_loop_digits s :
  ∀ z count dp, all_digits s = true →
    big.nat_scan_loop false z count dp s
    = (digits_value z s, count + strlen s, dp, EmptyString).
Proof.
  induction s as [|c s IH]; intros z count dp Hd; cbn [all_digits] in Hd.
  - unfold strlen. cbn. rewrite Z.add_0_r. reflexivity.
  - apply andb_true_iff in Hd as [Hc Hs].
    destruct (is_digit_digit_val c Hc) as [Hv Hlt].
    cbn [big.nat_scan_loop]. rewrite andb_false_r. cbv zeta.
    destruct (Z.leb_spec 10 (big.digit_val c)); [lia|].
    rewrite IH by exact Hs. cbn [digits_value].
    rewrite Hv, N2Z.id. unfold strlen. cbn [String.length].
    rewrite Nat2Z.inj_succ, <- Z.add_1_l, Z.add_assoc. reflexivity.
Qed.

(** If nothing is left unread, the input was all digits. *)
Lemma nat_scan_loop_all s :
  ∀ z count dp z' count' dp',
    big.nat_scan_loop false z count dp s = (z', count', dp', EmptyString) →
    all_digits s = true.
Proof.
  induction s as [|c s IH]; intros z count dp z' count' dp' H; [reflexivity|].
  cbn [big.nat_scan_loop] in H. rewrite andb_false_r in H. cbv zeta in H.
  cbn [all_digits].
  destruct (is_digit c) eqn:Hc.
  - destruct (is_digit_digit_val c Hc) as [_ Hlt].
    destruct (Z.leb_spec 10 (big.digit_val c)); [lia|].
    cbn. eapply IH. exact H.
  - pose proof (not_digit_digit_val c Hc).
    destruct (Z.leb_spec 10 (big.digit_val c)); [|lia].
    discriminate H.
Qed.

Lemma strlen_pos c s : 0 < strlen (String c s).
Proof. unfold strlen. cbn [String.length]. lia. Qed.

Lemma nat_scan_digits s :
  all_digits s = true → s ≠ EmptyString →
  big.nat_scan false s = Some (digits_value 0 s, strlen s, EmptyString).
Proof.
  intros Hd Hne. unfold big.nat_scan.
  rewrite nat_scan_loop_digits by exact Hd.
  destruct s as [|c s]; [congruence|].
  pose proof (strlen_pos c s).
  destruct (Z.eqb_spec (0 + strlen (String c s)) 0); [lia|].
  cbn [Z.leb Z.compare]. do 3 f_equal.
Qed.

Lemma nat_scan_consumed s z count :
  big.nat_scan false s = Some (z, count, EmptyString) →
  all_digits s = true ∧ s ≠ EmptyString ∧ z = digits_value 0 s.
Proof.
  unfold big.nat_scan. intros H.
  destruct (big.nat_scan_loop false 0 0 (-1) s) as [[[z0 c0] dp0] rest] eqn:E.
  destruct (c0 =? 0) eqn:Hc0; [discriminate|].
  injection H as Hz _ Hrest. subst rest z0.
  pose proof (nat_scan_loop_all _ _ _ _ _ _ _ E) as Hall.
  rewrite nat_scan_loop_digits in E by exact Hall.
  injection E as Hz Hc _. subst.
  split; [exact Hall|]. split; [|reflexivity].
  intros ->. cbn in Hc0. discriminate.
Qed.

(** The digits that [utoa] prints denote the number printed. *)
Lemma utoa_loop_value fuel :
  ∀ n acc, (n < 2 ^ N.of_nat fuel)%N →
    digits_value 0 (utoa_loop fuel n acc) = digits_value n acc.
Proof.
  assert (Hdig : ∀ n : N, digit_of (byte_of (byte_val "0" + Z.of_N (n mod 10))) = (n mod 10)%N).
  { intros n. unfold digit_of.
    pose proof (N.mod_upper_bound n 10 ltac:(discriminate)).
    set (d := (n mod 10)%N) in *.
    change (byte_val "0") with 48.
    rewrite byte_val_byte_of by lia. lia. }
  induction fuel as [|fuel IH]; intros n acc Hn.
  - cbn in Hn. assert (n = 0%N) by lia. subst n. reflexivity.
  - cbn [utoa_loop]. cbv zeta.
    assert (Hsplit : (n = n / 10 * 10 + n mod 10)%N).
    { rewrite N.mul_comm. apply N.div_mod. discriminate. }
    destruct (N.eqb_spec (n / 10) 0) as [H0|H0].
    + cbn [digits_value]. rewrite Hdig. f_equal. lia.
    + rewrite IH.
      * cbn [digits_value]. rewrite Hdig. f_equal. lia.
      * rewrite Nat2N.inj_succ, N.pow_succ_r' in Hn.
        apply N.Div0.div_lt_upper_bound. lia.
Qed.

Lemma utoa_loop_digits fuel :
  ∀ n acc, all_digits acc = true → all_digits (utoa_loop fuel n acc) = true.
Proof.
  assert (Hd : ∀ n : N, is_digit (byte_of (byte_val "0" + Z.of_N (n mod 10))) = true).
  { intros n. unfold is_digit.
    pose proof (N.mod_upper_bound n 10 ltac:(discriminate)).
    set (d := (n mod 10)%N) in *.
    change (byte_val "0") with 48. change (byte_val "9") with 57.
    rewrite byte_val_byte_of by lia.
    apply andb_true_iff. split; apply Z.leb_le; lia. }
  induction fuel as [|fuel IH]; intros n acc Hacc; cbn [utoa_loop]; cbv zeta.
  - cbn [all_digits]. rewrite Hd, Hacc. reflexivity.
  - destruct (n / 10 =? 0)%N.
    + cbn [all_digits]. rewrite Hd, Hacc. reflexivity.
    + apply IH. cbn [all_digits]. rewrite Hd, Hacc. reflexivity.
Qed.

Lemma utoa_loop_nonempty fuel : ∀ n acc, utoa_loop fuel n acc ≠ EmptyString.
Proof.
  induction fuel as [|fuel IH]; intros n acc; cbn [utoa_loop]; cbv zeta.
  - discriminate.
  - destruct (n / 10 =? 0)%N; [discriminate | apply IH].
Qed.

Lemma utoa_value n : digits_value 0 (utoa n) = n.
Proof.
  unfold utoa. rewrite utoa_loop_value; [reflexivity|].
  rewrite N2Nat.id. apply N.size_gt.
Qed.

Lemma utoa_digits n : all_digits (utoa n) = true.
Proof. apply utoa_loop_digits. reflexivity. Qed.

Lemma utoa_nonempty n : utoa n ≠ EmptyString.
Proof. apply utoa_loop_nonempty. Qed.

(** A string of digits carries no sign. *)
Lemma scanSign_digits s :
  all_digits s = true → s ≠ EmptyString → big.scanSign s = Some (false, s).
Proof.
  destruct s as [|c s]; [congruence|]. intros Hd _.
  cbn [all_digits] in Hd. apply andb_true_iff in Hd as [Hc _].
  unfold big.scanSign.
  destruct (Ascii.eqb_spec c "-") as [->|_]; [discriminate Hc|].
  destruct (Ascii.eqb_spec c "+") as [->|_]; [discriminate Hc|].
  reflexivity.
Qed.

(** Printing an integer and reading it back gives the integer. *)
Lemma Int_SetString_String i : big.Int_SetString (big.Int_String i) = Some i.
Proof.
  unfold big.Int_String, itoa, big.Int_SetString.
  destruct (Z.ltb_spec i 0) as [Hneg|Hpos].
  - cbn [big.scanSign]. change (Ascii.eqb "-" "-") with true. cbv iota.
    rewrite nat_scan_digits by (apply utoa_digits || apply utoa_nonempty).
    rewrite utoa_value, N2Z.inj_abs_N.
    destruct (Z.ltb_spec 0 (Z.abs i)); [|lia].
    cbn [andb]. f_equal. lia.
  - rewrite scanSign_digits by (apply utoa_digits || apply utoa_nonempty).
    rewrite nat_scan_digits by (apply utoa_digits || apply utoa_nonempty).
    rewrite utoa_value, N2Z.inj_abs_N, andb_false_r. f_equal. lia.
Qed.

(** [SetString] accepts exactly the integer grammar, with the value the
    literal denotes. *)
Lemma Int_SetString_literal s :
  int_literal s = true → big.Int_SetString s = Some (int_literal_value s).
Proof.
  unfold int_literal, int_literal_value, big.Int_SetString.
  destruct s as [|c s]; [discriminate|].
  unfold big.scanSign.
  destruct (Ascii.eqb_spec c "-") as [->|Hm].
  - cbn [orb]. intros H. apply andb_true_iff in H as [Hd Hne].
    assert (s ≠ EmptyString).
    { intros ->. discriminate Hne. }
    rewrite nat_scan_digits by assumption.
    destruct (Z.ltb_spec 0 (Z.of_N (digits_value 0 s))); cbn [andb]; f_equal; lia.
  - destruct (Ascii.eqb_spec c "+") as [->|Hp].
    + cbn [orb]. intros H. apply andb_true_iff in H as [Hd Hne].
      assert (s ≠ EmptyString).
      { intros ->. discriminate Hne. }
      rewrite nat_scan_digits by assumption.
      rewrite andb_false_r. reflexivity.
    + cbn [orb]. intros Hd.
      rewrite nat_scan_digits by (assumption || discriminate).
      rewrite andb_false_r. reflexivity.
Qed.

Lemma Int_SetString_grammar s i :
  big.Int_SetString s = Some i → int_literal s = true ∧ i = int_literal_value s.
Proof.
  intros H.
  assert (Hlit : int_literal s = true).
  { revert H. unfold big.Int_SetString, big.scanSign, int_literal.
    destruct s as [|c s]; [discriminate|].
    destruct (Ascii.eqb_spec c "-") as [->|Hm]; cbn [orb].
    - destruct (big.nat_scan false s) as [[[a n] rest]|] eqn:E; [|discriminate].
      destruct rest; [|discriminate]. intros _.
      apply nat_scan_consumed in E as (Hd & Hne & _).
      rewrite Hd. destruct s; [congruence | reflexivity].
    - destruct (Ascii.eqb_spec c "+") as [->|Hp]; cbn [orb].
      + destruct (big.nat_scan false s) as [[[a n] rest]|] eqn:E; [|discriminate].
        destruct rest; [|discriminate]. intros _.
        apply nat_scan_consumed in E as (Hd & Hne & _).
        rewrite Hd. destruct s; [congruence | reflexivity].
      + destruct (big.nat_scan false (String c s)) as [[[a n] rest]|] eqn:E; [|discriminate].
        destruct rest; [|discriminate]. intros _.
        apply nat_scan_consumed in E as (Hd & _ & _). exact Hd. }
  split; [exact Hlit|].
  rewrite (Int_SetString_literal s Hlit) in H. congruence.
Qed.

End Integers.

(** ** Float arithmetic never divides or multiplies a zero by an infinity *)

Section FloatPanics.

Lemma bitLen_pos m : m ≠ 0%N → 1 <= big.bitLen m.
Proof.
  intros Hm. unfold big.bitLen.
  rewrite N.size_log2 by exact Hm. lia.
Qed.

(** The product of two mantissas loses at most one leading bit. *)
Lemma bitLen_mul a b :
  a ≠ 0%N → b ≠ 0%N →
  big.bitLen a + big.bitLen b - 1 <= big.bitLen (a * b).
Proof.
  intros Ha Hb. unfold big.bitLen.
  rewrite !N.size_log2 by lia.
  pose proof (N.log2_mul_below a b ltac:(lia) ltac:(lia)). lia.
Qed.

Lemma shiftr_nonzero m k : m ≠ 0%N → (k < N.size m)%N → N.shiftr m k ≠ 0%N.
Proof.
  intros Hm Hk Hz.
  apply N.shiftr_eq_0_iff in Hz as [Hz | [_ Hlog]]; [contradiction|].
  rewrite N.size_log2 in Hk by exact Hm. lia.
Qed.

Lemma shiftl_nonzero m k : m ≠ 0%N → N.shiftl m k ≠ 0%N.
Proof.
  intros Hm Hz. apply N.shiftl_eq_0_iff in Hz. contradiction.
Qed.

Lemma at_least_one_inf z sign : 0 < big.prec z → at_least_one (big.setInf z sign).
Proof. intros Hp. split; [exact Hp | left; reflexivity]. Qed.

Lemma Float_round_at_least_one z sbit :
  0 < big.prec z → big.fform z = big.finite → big.mant z ≠ 0%N → 1 <= big.exp z →
  at_least_one (big.Float_round z sbit) ∧ big.prec (big.Float_round z sbit) = big.prec z.
Proof.
  intros Hp Hf Hm He. unfold big.Float_round. rewrite Hf.
  destruct (Z.leb_spec (big.bitLen (big.mant z)) (big.prec z)) as [Hfit|Hlong].
  - split; [|reflexivity]. split; [exact Hp|]. right. cbn.
    split; [reflexivity|]. split; [|exact He]. apply shiftl_nonzero, Hm.
  - cbv zeta.
    set (m := N.shiftr (big.mant z) _).
    assert (Hm' : m ≠ 0%N).
    { apply shiftr_nonzero; [exact Hm|]. unfold big.bitLen in *. lia. }
    match goal with
    | |- at_least_one (if ?inc then _ else _) ∧ _ => destruct inc
    end.
    + destruct (N.succ m =? N.shiftl 1 (Z.to_N (big.prec z)))%N.
      * destruct (big.MaxExp <=? big.exp z).
        -- split; [apply at_least_one_inf, Hp | reflexivity].
        -- split; [|reflexivity]. split; [exact Hp|]. right. cbn.
           split; [reflexivity|]. split; [apply shiftl_nonzero; discriminate | lia].
      * split; [|reflexivity]. split; [exact Hp|]. right. cbn.
        split; [reflexivity|]. split; [lia | exact He].
    + split; [|reflexivity]. split; [exact Hp|]. right. cbn.
      split; [reflexivity|]. split; [exact Hm' | exact He].
Qed.

Lemma setExpAndRound_at_least_one z m e sbit :
  0 < big.prec z → m ≠ 0%N → 1 <= e →
  at_least_one (big.setExpAndRound z m e sbit)
  ∧ big.prec (big.setExpAndRound z m e sbit) = big.prec z.
Proof.
  intros Hp Hm He. unfold big.setExpAndRound.
  destruct (Z.ltb_spec e big.MinExp) as [Hlow|_].
  { unfold big.MinExp in Hlow. lia. }
  destruct (big.MaxExp <? e).
  - split; [apply at_least_one_inf, Hp | reflexivity].
  - apply (Float_round_at_least_one
             (big.mkFloat (big.prec z) (big.mode z) (big.neg z) big.finite m e) sbit);
      cbn; auto.
Qed.

Lemma umul_at_least_one z x y :
  0 < big.prec z →
  big.mant x ≠ 0%N → 1 <= big.exp x → big.mant y ≠ 0%N → 1 <= big.exp y →
  at_least_one (big.umul z x y) ∧ big.prec (big.umul z x y) = big.prec z.
Proof.
  intros Hp Hmx Hex Hmy Hey. unfold big.umul. cbv zeta.
  apply setExpAndRound_at_least_one; [exact Hp | lia |].
  unfold big.fnorm.
  pose proof (bitLen_mul _ _ Hmx Hmy). lia.
Qed.

Lemma is_form_inf f : big.fform f = big.inf → big.is_form (big.fform f) big.inf = true
  ∧ big.is_form (big.fform f) big.zero = false
  ∧ big.is_form (big.fform f) big.finite = false.
Proof. intros ->. repeat split. Qed.

Lemma is_form_finite f : big.fform f = big.finite → big.is_form (big.fform f) big.inf = false
  ∧ big.is_form (big.fform f) big.zero = false
  ∧ big.is_form (big.fform f) big.finite = true.
Proof. intros ->. repeat split. Qed.

(** Multiplying two floats that are at least one returns, with a
    product that is at least one. *)
Lemma Mul_at_least_one z x y :
  0 < big.prec z → at_least_one x → at_least_one y →
  ∃ r, big.Mul z x y = Returns r ∧ at_least_one r.
Proof.
  intros Hp [_ Hx] [_ Hy]. unfold big.Mul. cbv zeta.
  unfold big.set_prec_if_zero.
  destruct (Z.eqb_spec (big.prec z) 0) as [H0|_]; [lia|].
  destruct Hx as [Hx | (Hx & Hmx & Hex)], Hy as [Hy | (Hy & Hmy & Hey)].
  - destruct (is_form_inf _ Hx) as (-> & -> & ->), (is_form_inf _ Hy) as (-> & -> & ->).
    cbn. eexists; split; [reflexivity|]. apply at_least_one_inf. exact Hp.
  - destruct (is_form_inf _ Hx) as (-> & -> & ->), (is_form_finite _ Hy) as (-> & -> & ->).
    cbn. eexists; split; [reflexivity|]. apply at_least_one_inf. exact Hp.
  - destruct (is_form_finite _ Hx) as (-> & -> & ->), (is_form_inf _ Hy) as (-> & -> & ->).
    cbn. eexists; split; [reflexivity|]. apply at_least_one_inf. exact Hp.
  - destruct (is_form_finite _ Hx) as (-> & -> & ->), (is_form_finite _ Hy) as (-> & -> & ->).
    cbn [andb]. eexists; split; [reflexivity|].
    apply umul_at_least_one; cbn; auto.
Qed.

Lemma pow5_loop_returns n :
  ∀ z f, at_least_one z → at_least_one f →
    ∃ r, big.pow5_loop n z f = Returns r.
Proof.
  induction n as [n IH|n IH|]; intros z f Hz Hf; cbn [big.pow5_loop].
  - destruct (Mul_at_least_one z z f (proj1 Hz) Hz Hf) as (z' & -> & Hz').
    destruct (Mul_at_least_one f f f (proj1 Hf) Hf Hf) as (f' & -> & Hf').
    cbn. apply IH; assumption.
  - destruct (Mul_at_least_one f f f (proj1 Hf) Hf Hf) as (f' & -> & Hf').
    cbn. apply IH; assumption.
  - destruct (Mul_at_least_one z z f (proj1 Hz) Hz Hf) as (z' & -> & Hz').
    destruct (Mul_at_least_one f f f (proj1 Hf) Hf Hf) as (f' & -> & Hf').
    cbn. eexists. reflexivity.
Qed.

Lemma SetUint64_at_least_one z x :
  0 <= big.prec z → x ≠ 0%N → at_least_one (big.SetUint64 z x).
Proof.
  intros Hp Hx. unfold big.SetUint64. cbv zeta.
  destruct (N.eqb_spec x 0) as [->|_]; [contradiction|].
  apply Float_round_at_least_one; cbn; auto.
  - destruct (Z.eqb_spec (big.prec z) 0); lia.
  - apply bitLen_pos, Hx.
Qed.

Lemma pow5_returns z n : 0 <= big.prec z → ∃ r, big.pow5 z n = Returns r.
Proof.
  intros Hp. unfold big.pow5.
  destruct (n <=? big.pow5tab_max)%N; [eexists; reflexivity|].
  cbv zeta.
  destruct (n - big.pow5tab_max)%N as [|n']; [eexists; reflexivity|].
  apply pow5_loop_returns.
  - apply SetUint64_at_least_one; [exact Hp | discriminate].
  - apply SetUint64_at_least_one; [|discriminate]. cbn.
    assert (Hq : 0 < big.prec (big.SetUint64 z (5 ^ big.pow5tab_max)%N)).
    { apply (SetUint64_at_least_one z (5 ^ big.pow5tab_max)%N Hp). discriminate. }
    lia.
Qed.

(** A finite dividend or factor never makes [Quo] or [Mul] panic. *)
Lemma Quo_finite_returns z x y :
  big.fform x = big.finite → ∃ r, big.Quo z x y = Returns r.
Proof.
  intros Hx. unfold big.Quo. cbv zeta. rewrite Hx. cbn [big.is_form andb orb].
  repeat match goal with
         | |- context [ if ?b then _ else _ ] => destruct b
         end; eexists; reflexivity.
Qed.

Lemma Mul_finite_returns z x y :
  big.fform x = big.finite → ∃ r, big.Mul z x y = Returns r.
Proof.
  intros Hx. unfold big.Mul. cbv zeta. rewrite Hx. cbn [big.is_form andb orb].
  repeat match goal with
         | |- context [ if ?b then _ else _ ] => destruct b
         end; eexists; reflexivity.
Qed.

Lemma Float_scan_returns z r : 0 <= big.prec z → ∃ o, big.Float_scan z r = Returns o.
Proof.
  intros Hp. unfold big.Float_scan. cbv zeta.
  destruct (big.scanSign r) as [[sign r1]|]; [|eexists; reflexivity].
  destruct (big.nat_scan true r1) as [[[m fcount] r2]|]; [|eexists; reflexivity].
  destruct (big.scanExponent r2) as [[[e ebase] r3]|]; [|eexists; reflexivity].
  destruct (m =? 0)%N; [eexists; reflexivity|].
  destruct (fcount <? 0); destruct (ebase =? 10);
    (match goal with
     | |- context [ if (?a && ?b) then _ else _ ] => destruct (a && b)
     end; [|eexists; reflexivity]);
    (match goal with
     | |- context [ if (?a =? 0) then _ else _ ] => destruct (a =? 0)
     end; [eexists; reflexivity|]);
    (match goal with
     | |- context [ if (?a <? 0) then _ else _ ] => destruct (a <? 0)
     end);
    (match goal with
     | |- context [ big.pow5 ?p ?n ] =>
         let y := fresh "y" in
         let Hy := fresh "Hy" in
         destruct (pow5_returns p n) as [y Hy];
         [ cbn; destruct (Z.eqb_spec (big.prec z) 0); lia | rewrite Hy ]
     end);
    cbn [mbind outcome_bind];
    (match goal with
     | |- context [ big.Quo ?a ?b ?c ] =>
         let q := fresh "q" in
         let Hq := fresh "Hq" in
         destruct (Quo_finite_returns a b c eq_refl) as [q Hq]; rewrite Hq
     | |- context [ big.Mul ?a ?b ?c ] =>
         let q := fresh "q" in
         let Hq := fresh "Hq" in
         destruct (Mul_finite_returns a b c eq_refl) as [q Hq]; rewrite Hq
     end);
    eexists; reflexivity.
Qed.

(** [big.ParseFloat] always returns. *)
Lemma ParseFloat_returns s p m : 0 <= p → ∃ o, big.ParseFloat s p m = Returns o.
Proof.
  intros Hp. unfold big.ParseFloat, big.Float_Parse.
  repeat match goal with
         | |- context [ if ?b then _ else _ ] => destruct b; [eexists; reflexivity|]
         end.
  destruct (Float_scan_returns (big.newFloat p m) s Hp) as [o ->].
  cbn [mbind outcome_bind].
  destruct o as [[f [|c rest]]|]; eexists; reflexivity.
Qed.

End FloatPanics.

(** * Properties of [Add] *)

Section Classification.

(** The chain as a whole returns, whatever the value. *)
Lemma coercion_returns value : ∃ x, coercion value = Returns x.
Proof.
  unfold coercion.
  destruct (big.Int_SetString value); [eexists; reflexivity|].
  destruct (ParseFloat_returns value 256 big.ToNearestEven ltac:(lia)) as [o ->].
  cbn [mbind outcome_bind].
  destruct o; [eexists; reflexivity|].
  destruct (strconv.ParseBool value); [eexists; reflexivity|].
  destruct (json.Unmarshal value); eexists; reflexivity.
Qed.

(** Each parser yields at most one value. *)
Lemma accepts_functional t value x x' :
  accepts t value x → accepts t value x' → x = x'.
Proof.
  destruct t; cbn [accepts].
  - intros (i & Hi & ->) (i' & Hi' & ->). congruence.
  - intros (f & Hf & ->) (f' & Hf' & ->). congruence.
  - intros (b & Hb & ->) (b' & Hb' & ->). congruence.
  - congruence.
  - congruence.
Qed.

Lemma priority_inj t t' : priority t = priority t' → t = t'.
Proof. destruct t, t'; cbn; intros H; first [reflexivity | discriminate H]. Qed.

(** Two first matches for one value are the same match. *)
Lemma first_match_unique value t x t' x' :
  first_match value t x → first_match value t' x' → t = t' ∧ x = x'.
Proof.
  intros [Ha Hbefore] [Ha' Hbefore'].
  destruct (Nat.lt_trichotomy (priority t) (priority t')) as [Hlt | [Heq | Hgt]].
  - exfalso. apply (Hbefore' t Hlt). eauto.
  - apply priority_inj in Heq. subst t'.
    split; [reflexivity | eapply accepts_functional; eassumption].
  - exfalso. apply (Hbefore t' Hgt). eauto.
Qed.

(** The chain computes the first match. *)
Lemma coercion_chosen value :
  ∃ x, coercion value = Returns x ∧ first_match value (chosen_tag value) x.
Proof.
  unfold coercion, chosen_tag.
  destruct (big.Int_SetString value) as [i|] eqn:Hint.
  { exists (VBigInt i). split; [reflexivity|]. split.
    - cbn. eauto.
    - intros t' Hlt. destruct t'; cbn in Hlt; lia. }
  destruct (ParseFloat_returns value 256 big.ToNearestEven ltac:(lia)) as [o Hfloat].
  rewrite Hfloat. cbn [mbind outcome_bind].
  destruct o as [f|].
  { exists (VBigFloat f). split; [reflexivity|]. split.
    - cbn. eauto.
    - intros t' Hlt [x' Hx'].
      destruct t'; cbn in Hlt; try lia.
      destruct Hx' as (i & Hi & _). congruence. }
  destruct (strconv.ParseBool value) as [b|] eqn:Hbool.
  { exists (VBool b). split; [reflexivity|]. split.
    - cbn. eauto.
    - intros t' Hlt [x' Hx'].
      destruct t'; cbn in Hlt; try lia.
      + destruct Hx' as (i & Hi & _). congruence.
      + destruct Hx' as (f & Hf & _). congruence. }
  destruct (json.Unmarshal value) as [decoded|] eqn:Hjson.
  { exists decoded. split; [reflexivity|]. split.
    - exact Hjson.
    - intros t' Hlt [x' Hx'].
      destruct t'; cbn in Hlt; try lia.
      + destruct Hx' as (i & Hi & _). congruence.
      + destruct Hx' as (f & Hf & _). congruence.
      + destruct Hx' as (b & Hb & _). congruence. }
  exists (VString value). split; [reflexivity|]. split.
  - reflexivity.
  - intros t' Hlt [x' Hx'].
    destruct t'; cbn in Hlt; try lia.
    + destruct Hx' as (i & Hi & _). congruence.
    + destruct Hx' as (f & Hf & _). congruence.
    + destruct Hx' as (b & Hb & _). congruence.
    + cbn in Hx'. congruence.
Qed.

(** C1: for every value the chain of [Add] tries the integer parser,
    the 256-bit round-to-nearest-even decimal parser, the boolean
    parser, the JSON decoder and the string fallback in that order;
    what it stores is what the first accepting parser yields, and
    exactly one of the five tags is that first match. *)
Theorem coercion_first_match (value : string) :
  ∃ x, coercion value = Returns x
       ∧ first_match value (chosen_tag value) x
       ∧ ∀ t x', first_match value t x' → t = chosen_tag value ∧ x' = x.
Proof.
  destruct (coercion_chosen value) as (x & Hx & Hfirst).
  exists x. split; [exact Hx|]. split; [exact Hfirst|].
  intros t x' Hother.
  exact (first_match_unique _ _ _ _ _ Hother Hfirst).
Qed.

End Classification.

Section Recording.

Implicit Types m : gmap string (list jsval).

(** What one call does to an allocated collection. *)
Lemma Add_spec m key value :
  ∃ x, coercion value = Returns x
       ∧ Add (Values m) key value
         = Returns (Values (<[key := default [] (m !! key) ++ [x]]> m)).
Proof.
  destruct (coercion_returns value) as [x Hx].
  exists x. split; [exact Hx|].
  unfold Add. rewrite Hx. reflexivity.
Qed.

(** C8: [Add] has no error channel and always returns: for every
    allocated collection, every key and every value (the empty ones
    included) the call returns normally with the collection fully
    updated; no parser panics, and the string fallback classifies what
    the other parsers reject. *)
Theorem Add_total m (key value : string) :
  ∃ x m',
    coercion value = Returns x
    ∧ Add (Values m) key value = Returns (Values m')
    ∧ m' = <[key := index (Values m) key ++ [x]]> m.
Proof.
  destruct (Add_spec m key value) as (x & Hx & HAdd).
  exists x, (<[key := default [] (m !! key) ++ [x]]> m).
  split; [exact Hx|]. split; [exact HAdd | reflexivity].
Qed.

(** C9: a call appends exactly one element to the sequence of its key,
    leaves the sequence of every other key as it was, and keeps every
    element stored before at its place. *)
Theorem Add_frame m (key value : string) :
  ∃ x m',
    coercion value = Returns x
    ∧ Add (Values m) key value = Returns (Values m')
    ∧ m' !! key = Some (index (Values m) key ++ [x])
    ∧ (∀ k, k ≠ key → m' !! k = m !! k)
    ∧ (∀ k l (i : nat) y, m !! k = Some l → l !! i = Some y →
         ∃ l', m' !! k = Some l' ∧ l' !! i = Some y).
Proof.
  destruct (Add_spec m key value) as (x & Hx & HAdd).
  exists x, (<[key := default [] (m !! key) ++ [x]]> m).
  split; [exact Hx|]. split; [exact HAdd|].
  split; [apply lookup_insert_eq|].
  split.
  - intros k Hk. apply lookup_insert_ne. congruence.
  - intros k l i y Hl Hy.
    destruct (decide (k = key)) as [->|Hne].
    + rewrite lookup_insert_eq, Hl. cbn [default].
      eexists. split; [reflexivity|].
      apply lookup_app_l_Some. exact Hy.
    + exists l. rewrite lookup_insert_ne by congruence. auto.
Qed.

(** C2: on a collection with nothing under [k], one call leaves the
    one-element sequence of the coerced value under [k], and a second
    call with the same key appends to it, in call order. *)
Theorem Add_twice m (k v1 v2 : string) :
  m !! k = None →
  ∃ x1 x2 m1 m2,
    coercion v1 = Returns x1
    ∧ coercion v2 = Returns x2
    ∧ Add (Values m) k v1 = Returns (Values m1)
    ∧ m1 !! k = Some [x1]
    ∧ Add (Values m1) k v2 = Returns (Values m2)
    ∧ m2 !! k = Some [x1; x2].
Proof.
  intros Hfresh.
  destruct (Add_spec m k v1) as (x1 & Hx1 & HAdd1).
  rewrite Hfresh in HAdd1. cbn [default app] in HAdd1.
  destruct (Add_spec (<[k := [x1]]> m) k v2) as (x2 & Hx2 & HAdd2).
  rewrite lookup_insert_eq in HAdd2. cbn [default app] in HAdd2.
  exists x1, x2, (<[k := [x1]]> m), (<[k := [x1; x2]]> (<[k := [x1]]> m)).
  repeat split; try assumption; apply lookup_insert_eq.
Qed.

Lemma Add_twice_witness :
  (∅ : gmap string (list jsval)) !! "k" = None
  ∧ ∃ x1 x2 m1 m2,
      coercion "8080" = Returns x1
      ∧ coercion "b" = Returns x2
      ∧ Add (Values ∅) "k" "8080" = Returns (Values m1)
      ∧ m1 !! "k" = Some [x1]
      ∧ Add (Values m1) "k" "b" = Returns (Values m2)
      ∧ m2 !! "k" = Some [x1; x2].
Proof.
  split; [reflexivity|].
  apply (Add_twice ∅ "k" "8080" "b"). reflexivity.
Defined.


End Recording.

(** * Particular values *)

Section Examples.

(** C3: ["0x10"] is rejected by the integer, decimal, boolean and JSON
    parsers and stays the string ["0x10"]; the empty string stays the
    empty string; ["null"] becomes the JSON null and ["[1,2]"] the JSON
    array of 1 and 2. *)
Theorem coercion_fallback_and_json :
  coercion "0x10" = Returns (VString "0x10")
  ∧ big.Int_SetString "0x10" = None
  ∧ big.ParseFloat "0x10" 256 big.ToNearestEven = Returns None
  ∧ strconv.ParseBool "0x10" = None
  ∧ json.Unmarshal "0x10" = None
  ∧ chosen_tag "0x10" = TagString
  ∧ coercion EmptyString = Returns (VString EmptyString)
  ∧ coercion "null" = Returns VNil
  ∧ chosen_tag "null" = TagJSON
  ∧ coercion "[1,2]" = Returns (VSlice [VFloat64 float64_1; VFloat64 float64_2])
  ∧ chosen_tag "[1,2]" = TagJSON.
Proof. by_computation. Qed.

(** C4: ["1e10"] is no integer literal, the decimal parser takes the
    exponent, and the stored value is the 256-bit decimal under the
    numeric adapter: neither the [float64] the JSON decoder would give
    nor a string. *)
Theorem coercion_exponent :
  big.Int_SetString "1e10" = None
  ∧ big.ParseFloat "1e10" 256 big.ToNearestEven = Returns (Some float_1e10)
  ∧ coercion "1e10" = Returns (VBigFloat float_1e10)
  ∧ chosen_tag "1e10" = TagDecimal
  ∧ (∃ f, json.Unmarshal "1e10" = Some (VFloat64 f))
  ∧ MarshalJSON float_1e10 = "1e+10".
Proof.
  do 4 (split; [by_computation|]).
  split; [eexists|]; by_computation.
Qed.

(** C5: a literal of the integer grammar is stored as the unbounded
    integer it denotes, and printing that integer and reading the text
    back gives the same integer. *)
Theorem coercion_integer (s : string) :
  int_literal s = true →
  ∃ i, big.Int_SetString s = Some i
       ∧ i = int_literal_value s
       ∧ coercion s = Returns (VBigInt i)
       ∧ big.Int_SetString (big.Int_String i) = Some i.
Proof.
  intros Hlit. exists (int_literal_value s).
  pose proof (Int_SetString_literal s Hlit) as Hset.
  split; [exact Hset|]. split; [reflexivity|]. split.
  - unfold coercion. rewrite Hset. reflexivity.
  - apply Int_SetString_String.
Qed.

Lemma coercion_integer_witness :
  int_literal "-0012345678901234567890123456789" = true
  ∧ ∃ i, big.Int_SetString "-0012345678901234567890123456789" = Some i
         ∧ i = int_literal_value "-0012345678901234567890123456789"
         ∧ coercion "-0012345678901234567890123456789" = Returns (VBigInt i)
         ∧ big.Int_SetString (big.Int_String i) = Some i.
Proof.
  split; [reflexivity|].
  apply (coercion_integer "-0012345678901234567890123456789"). reflexivity.
Defined.

(** C6, at the infinity: ["inf"] is accepted by the decimal parser and
    not by the integer parser, and the text the adapter gives to the
    encoder, ["+Inf"], is not JSON, so no JSON parser reads it back. *)
Theorem MarshalJSON_infinity_invalid :
  big.Int_SetString "inf" = None
  ∧ coercion "inf" = Returns (VBigFloat (float_inf false))
  ∧ MarshalJSON (float_inf false) = "+Inf"
  ∧ json.Valid "+Inf" = false
  ∧ json.Unmarshal "+Inf" = None.
Proof. by_computation. Qed.

(** C7: ["true"] and ["false"] pass the integer and decimal parsers by
    and become the booleans; ["True"] is in the grammar of
    [strconv.ParseBool] and becomes [true]. *)
Theorem coercion_booleans :
  coercion "true" = Returns (VBool true)
  ∧ coercion "false" = Returns (VBool false)
  ∧ big.Int_SetString "true" = None ∧ big.Int_SetString "false" = None
  ∧ big.ParseFloat "true" 256 big.ToNearestEven = Returns None
  ∧ big.ParseFloat "false" 256 big.ToNearestEven = Returns None
  ∧ chosen_tag "true" = TagBoolean ∧ chosen_tag "false" = TagBoolean
  ∧ strconv.ParseBool "True" = Some true
  ∧ coercion "True" = Returns (VBool true).
Proof. by_computation. Qed.

(** C10: the spellings of infinity are taken by the decimal parser, so
    the stored value is an infinite decimal under the adapter, not a
    string; the adapter prints it as ["+Inf"] or ["-Inf"], which is not
    JSON. *)
Theorem coercion_infinity :
  coercion "inf" = Returns (VBigFloat (float_inf false))
  ∧ coercion "Inf" = Returns (VBigFloat (float_inf false))
  ∧ coercion "+inf" = Returns (VBigFloat (float_inf false))
  ∧ coercion "-inf" = Returns (VBigFloat (float_inf true))
  ∧ chosen_tag "inf" = TagDecimal
  ∧ MarshalJSON (float_inf false) = "+Inf"
  ∧ MarshalJSON (float_inf true) = "-Inf"
  ∧ json.Valid "+Inf" = false
  ∧ json.Valid "-Inf" = false.
Proof. by_computation. Qed.

End Examples.

(** * Checks of the models on known values *)

Section Sanity.

(** A decimal between the integer and the boolean step is stored under
    the adapter, whatever it is. *)
Lemma coercion_decimal s f :
  big.Int_SetString s = None →
  big.ParseFloat s 256 big.ToNearestEven = Returns (Some f) →
  coercion s = Returns (VBigFloat f) ∧ chosen_tag s = TagDecimal.
Proof.
  intros Hint Hfloat. unfold coercion, chosen_tag.
  rewrite Hint, Hfloat. split; reflexivity.
Qed.

(** The finite decimals of the specification print as JSON numbers that
    read back as the same 256-bit value. *)
Example MarshalJSON_finite_examples :
  ∃ a b c,
    coercion "3.14" = Returns (VBigFloat a) ∧ MarshalJSON a = "3.14"
    ∧ big.ParseFloat (MarshalJSON a) 256 big.ToNearestEven = Returns (Some a)
    ∧ coercion "-0.5" = Returns (VBigFloat b) ∧ MarshalJSON b = "-0.5"
    ∧ big.ParseFloat (MarshalJSON b) 256 big.ToNearestEven = Returns (Some b)
    ∧ coercion "1e10" = Returns (VBigFloat c) ∧ MarshalJSON c = "1e+10"
    ∧ big.ParseFloat (MarshalJSON c) 256 big.ToNearestEven = Returns (Some c)
    ∧ json.Valid (MarshalJSON a) = true
    ∧ json.Valid (MarshalJSON b) = true
    ∧ json.Valid (MarshalJSON c) = true.
Proof.
  do 3 eexists. by_computation.
Qed.

(** Forty significant digits survive printing. *)
Example MarshalJSON_forty_digits :
  ∃ f, coercion "1234567890.123456789012345678901234567891" = Returns (VBigFloat f)
       ∧ MarshalJSON f = "1.234567890123456789012345678901234567891e+09".
Proof. eexists. by_computation. Qed.

(** Whatever the sign, an infinite decimal is printed as text that is
    not JSON. *)
Lemma MarshalJSON_inf_not_json f :
  big.fform f = big.inf → json.Valid (MarshalJSON f) = false.
Proof.
  intros Hinf. unfold MarshalJSON, big.MarshalText. rewrite Hinf.
  destruct (big.neg f); vm_compute; reflexivity.
Qed.

(** A decimal exponent that the binary exponent still holds but the
    power of five does not: the parser returns an infinity.  A binary
    exponent is read after a decimal mantissa. *)
Example ParseFloat_overflows_to_infinity :
  big.ParseFloat "1e2000000000" 256 big.ToNearestEven = Returns (Some (float_inf false))
  ∧ big.ParseFloat "1e3000000000" 256 big.ToNearestEven = Returns None
  ∧ (∃ f, big.ParseFloat "1p10" 256 big.ToNearestEven = Returns (Some f)
          ∧ big.MarshalText f = "1024").
Proof.
  do 2 (split; [by_computation|]).
  eexists. by_computation.
Qed.

(** Integers keep every digit, far beyond 64 bits. *)
Example coercion_large_integer :
  coercion "+340282366920938463463374607431768211457"
  = Returns (VBigInt 340282366920938463463374607431768211457)
  ∧ big.Int_String 340282366920938463463374607431768211457
    = "340282366920938463463374607431768211457"
  ∧ coercion "-0" = Returns (VBigInt 0).
Proof. by_computation. Qed.

(** The JSON decoder: quoted strings with escapes, nesting, a repeated
    object key, a number outside [float64], surrounding space. *)
Example Unmarshal_examples :
  json.Unmarshal (quoted "a\nA") = Some (VString (String "a" (String (byte_of 10) "A")))
  ∧ json.Unmarshal (quoted "😀") = Some (VString "😀")
  ∧ json.Unmarshal (quoted "\ud83dx") = Some (VString "�x")
  ∧ json.Unmarshal ("{" +:+ quoted "k" +:+ ":1," +:+ quoted "k" +:+ ":[true,null]}")
    = Some (VMap {[ "k" := VSlice [VBool true; VNil] ]})
  ∧ json.Unmarshal "[1e999]" = None
  ∧ json.Valid "[1e999]" = true
  ∧ json.Unmarshal " 2 " = Some (VFloat64 float64_2)
  ∧ json.Unmarshal "[1,]" = None
  ∧ json.Unmarshal "01" = None.
Proof. by_computation. Qed.

(** Values that only the JSON step takes. *)
Example coercion_json_examples :
  coercion (quoted "text") = Returns (VString "text")
  ∧ chosen_tag (quoted "text") = TagJSON
  ∧ coercion " true" = Returns (VBool true)
  ∧ chosen_tag " true" = TagJSON
  ∧ coercion "{}" = Returns (VMap ∅).
Proof. by_computation. Qed.

(** The end-to-end example of the specification in typed mode. *)
Example record_example_result :
  record_example
  = Returns (Values {[ "port" := [VBigInt 8080];
                       "debug" := [VBool true];
                       "tags" := [VString "a"; VString "b"] ]}).
Proof. by_computation. Qed.

End Sanity.

(** * Sequences of calls *)

Section Sequences.

Implicit Types m : gmap string (list jsval).
Implicit Types pairs : list (string * string).

Lemma coercion_coerced value : coercion value = Returns (coerced value).
Proof.
  unfold coerced. destruct (coercion_returns value) as [x ->]. reflexivity.
Qed.

Lemma Add_coerced m key value :
  Add (Values m) key value
  = Returns (Values (<[key := default [] (m !! key) ++ [coerced value]]> m)).
Proof.
  unfold Add. rewrite coercion_coerced. reflexivity.
Qed.

(** What a sequence of calls leaves under each key. *)
Lemma AddAll_lookup pairs :
  ∀ m, ∃ m',
    AddAll (Values m) pairs = Returns (Values m')
    ∧ ∀ k, m' !! k = match values_of k pairs with
                     | [] => m !! k
                     | vs => Some (default [] (m !! k) ++ map coerced vs)
                     end.
Proof.
  induction pairs as [|[key value] rest IH]; intros m.
  - exists m. split; [reflexivity | intros k; reflexivity].
  - cbn [AddAll]. rewrite Add_coerced. cbn [mbind outcome_bind].
    destruct (IH (<[key := default [] (m !! key) ++ [coerced value]]> m))
      as (m' & Hrun & Hlook).
    exists m'. split; [exact Hrun|].
    intros k. rewrite Hlook. cbn [values_of].
    destruct (String.eqb_spec key k) as [->|Hne].
    + rewrite lookup_insert_eq. cbn [from_option id].
      destruct (values_of k rest) as [|v vs]; cbn [map].
      * reflexivity.
      * rewrite <- app_assoc. reflexivity.
    + rewrite lookup_insert_ne by exact Hne. reflexivity.
Qed.

Lemma values_of_nil_iff key pairs :
  values_of key pairs = [] ↔ key ∉ map fst pairs.
Proof.
  induction pairs as [|[k v] rest IH]; cbn [values_of map fst].
  - split; [intros _; apply not_elem_of_nil | reflexivity].
  - rewrite not_elem_of_cons.
    destruct (String.eqb_spec k key) as [->|Hne].
    + split; [discriminate | intros [H _]; congruence].
    + rewrite IH. split; [intros H; split; [congruence | exact H] | intros [_ H]; exact H].
Qed.

(** X1: a run of calls on an allocated collection returns, and under
    every key it leaves what was there followed by the coerced values
    handed over under that key, in the order of the calls. *)
Theorem AddAll_sequences m pairs :
  ∃ m',
    AddAll (Values m) pairs = Returns (Values m')
    ∧ ∀ k, index (Values m') k
           = index (Values m) k ++ map coerced (values_of k pairs).
Proof.
  destruct (AddAll_lookup pairs m) as (m' & Hrun & Hlook).
  exists m'. split; [exact Hrun|].
  intros k. cbn [index]. rewrite Hlook.
  destruct (values_of k pairs); cbn [map from_option id].
  - rewrite app_nil_r. reflexivity.
  - reflexivity.
Qed.

(** X2: starting from [newTypedValues], the keys of the collection are
    exactly the keys handed over, and no key holds an empty sequence:
    each holds the coerced values of its occurrences. *)
Theorem AddAll_keys pairs :
  ∃ m',
    AddAll newTypedValues pairs = Returns (Values m')
    ∧ dom m' = list_to_set (map fst pairs)
    ∧ ∀ k l, m' !! k = Some l → l ≠ [] ∧ l = map coerced (values_of k pairs).
Proof.
  destruct (AddAll_lookup pairs ∅) as (m' & Hrun & Hlook).
  exists m'. split; [exact Hrun|]. split.
  - apply set_eq. intros k.
    rewrite elem_of_dom, elem_of_list_to_set, Hlook.
    pose proof (values_of_nil_iff k pairs) as Hnil.
    destruct (values_of k pairs) as [|v vs].
    + rewrite lookup_empty. split.
      * intros [x Hx]. discriminate Hx.
      * intros Hin. exfalso. apply (proj1 Hnil); [reflexivity | exact Hin].
    + split; [|intros _; eexists; reflexivity].
      intros _. destruct (decide (k ∈ map fst pairs)) as [Hin|Hnot]; [exact Hin|].
      apply Hnil in Hnot. discriminate Hnot.
  - intros k l. rewrite Hlook.
    destruct (values_of k pairs) as [|v vs].
    + rewrite lookup_empty. discriminate.
    + rewrite lookup_empty. cbn [from_option id app]. intros [= <-].
      split; [discriminate | reflexivity].
Qed.

(** X3: only the order of the calls with one and the same key matters:
    two runs that hand over the same values under every key leave the
    same collection. *)
Theorem AddAll_order m pairs1 pairs2 :
  (∀ k, values_of k pairs1 = values_of k pairs2) →
  AddAll (Values m) pairs1 = AddAll (Values m) pairs2.
Proof.
  intros Hsame.
  destruct (AddAll_lookup pairs1 m) as (m1 & -> & H1).
  destruct (AddAll_lookup pairs2 m) as (m2 & -> & H2).
  do 2 f_equal. apply map_eq. intros k.
  rewrite H1, H2, Hsame. reflexivity.
Qed.

Lemma AddAll_order_witness :
  (∀ k, values_of k [("port", "8080"); ("tags", "a"); ("tags", "b")]
        = values_of k [("tags", "a"); ("port", "8080"); ("tags", "b")])
  ∧ AddAll (Values ∅) [("port", "8080"); ("tags", "a"); ("tags", "b")]
    = AddAll (Values ∅) [("tags", "a"); ("port", "8080"); ("tags", "b")].
Proof.
  assert (H : ∀ k, values_of k [("port", "8080"); ("tags", "a"); ("tags", "b")]
                   = values_of k [("tags", "a"); ("port", "8080"); ("tags", "b")]).
  { intros k. cbn [values_of].
    destruct (String.eqb_spec "port" k) as [<-|_]; [reflexivity|].
    destruct (String.eqb "tags" k); reflexivity. }
  split; [exact H|].
  apply (AddAll_order ∅ _ _ H).
Defined.

End Sequences.

(** * What the JSON decoder can return *)

Section DecoderValues.

Create HintDb decoder.

Lemma literalInterface_json item : json_value (fst (json.literalInterface item)).
Proof.
  unfold json.literalInterface.
  destruct item as [|c item]; [constructor|].
  repeat match goal with
         | |- context [ if ?b then _ else _ ] => destruct b
         | |- context [ match ?o with Some _ => _ | None => _ end ] => destruct o
         end; constructor.
Qed.

Lemma set_step_ok d s : decoder_ok d → decoder_ok (json.set_step d s).
Proof. intros H. exact H. Qed.

Lemma error_ok d : decoder_ok d → decoder_ok (json.error d).
Proof. intros H. exact H. Qed.

Lemma take_byte_ok d c s : decoder_ok d → decoder_ok (json.take_byte d c s).
Proof. intros H. exact H. Qed.

Lemma store_ok d v err : decoder_ok d → json_value v → decoder_ok (json.store d v err).
Proof.
  intros H Hv. pose proof H as [Hframes Htop]. unfold json.store.
  destruct (json.parseState d) as [|f ps] eqn:Hps.
  - split; cbn; [constructor|]. intros x [= <-]. exact Hv.
  - apply Forall_cons in Hframes as [Hf Hps'].
    destruct f as [m key|m key|elems].
    + destruct v; try exact H.
      split; cbn; [constructor; assumption | exact Htop].
    + split; cbn; [|exact Htop]. constructor; [|exact Hps'].
      cbn. intros k x. rewrite lookup_insert.
      destruct (decide (key = k)); [intros [= <-]; exact Hv | apply Hf].
    + split; cbn; [|exact Htop]. constructor; [|exact Hps'].
      cbn. apply Forall_app. split; [exact Hf | constructor; [exact Hv | constructor]].
Qed.

Lemma end_literal_ok d : decoder_ok d → decoder_ok (json.end_literal d).
Proof.
  intros H. unfold json.end_literal.
  pose proof (literalInterface_json (string_rev (json.lit d))) as Hv.
  destruct (json.literalInterface (string_rev (json.lit d))) as [v err].
  apply store_ok; assumption.
Qed.

Lemma pushParseState_ok d f s :
  decoder_ok d → frame_ok f → decoder_ok (json.pushParseState d f s).
Proof.
  intros [Hframes Htop] Hf. unfold json.pushParseState. cbv zeta.
  destruct (_ <=? _); [|split; assumption].
  split; cbn; [constructor; assumption | exact Htop].
Qed.

Lemma popParseState_ok d v :
  decoder_ok d → json_value v → decoder_ok (json.popParseState d v).
Proof.
  intros H Hv. pose proof H as [Hframes Htop]. unfold json.popParseState.
  destruct (json.parseState d) as [|f ps] eqn:Hps.
  - exact H.
  - apply Forall_cons in Hframes as [_ Hps'].
    cbv zeta.
    assert (Hstored : decoder_ok
              (json.store (json.mkState (json.step d) ps (json.lit d) (json.top d)
                                        (json.savedError d) (json.endTop d)) v false)).
    { apply store_ok; [split; assumption | exact Hv]. }
    destruct ps; exact Hstored.
Qed.

Lemma do_stateEndTop_ok d c : decoder_ok d → decoder_ok (json.do_stateEndTop d c).
Proof. intros H. unfold json.do_stateEndTop. destruct (json.isSpace c); exact H. Qed.

Lemma do_stateEndValue_ok d c : decoder_ok d → decoder_ok (json.do_stateEndValue d c).
Proof.
  intros H. pose proof H as [Hframes Htop]. unfold json.do_stateEndValue.
  destruct (json.parseState d) as [|f ps] eqn:Hps.
  - apply do_stateEndTop_ok. split; [constructor | exact Htop].
  - destruct (json.isSpace c); [exact H|].
    pose proof Hframes as Hall.
    apply Forall_cons in Hall as [Hf Hps'].
    destruct f as [m key|m key|elems].
    + destruct key as [k|]; [|exact H].
      destruct (Ascii.eqb c ":"); [|exact H].
      split; cbn; [constructor; assumption | exact Htop].
    + destruct (Ascii.eqb c ",").
      * split; cbn; [constructor; assumption | exact Htop].
      * destruct (Ascii.eqb c "}"); [|exact H].
        apply popParseState_ok; [exact H | constructor; exact Hf].
    + destruct (Ascii.eqb c ","); [exact H|].
      destruct (Ascii.eqb c "]"); [|exact H].
      apply popParseState_ok; [exact H | constructor; exact Hf].
Qed.

Lemma do_stateBeginValue_ok d c : decoder_ok d → decoder_ok (json.do_stateBeginValue d c).
Proof.
  intros H. unfold json.do_stateBeginValue.
  repeat match goal with
         | |- decoder_ok (if ?b then _ else _) => destruct b
         end; try exact H.
  - apply pushParseState_ok; [exact H|]. cbn. intros k x Hx.
    rewrite lookup_empty in Hx. discriminate Hx.
  - apply pushParseState_ok; [exact H | constructor].
Qed.

Lemma do_stateBeginString_ok d c : decoder_ok d → decoder_ok (json.do_stateBeginString d c).
Proof.
  intros H. unfold json.do_stateBeginString.
  repeat match goal with
         | |- decoder_ok (if ?b then _ else _) => destruct b
         end; exact H.
Qed.

Lemma end_number_ok d c : decoder_ok d → decoder_ok (json.end_number d c).
Proof. intros H. apply do_stateEndValue_ok, end_literal_ok, H. Qed.

Lemma do_state0_ok d c : decoder_ok d → decoder_ok (json.do_state0 d c).
Proof.
  intros H. unfold json.do_state0.
  repeat match goal with
         | |- decoder_ok (if ?b then _ else _) => destruct b
         end; try exact H.
  apply end_number_ok, H.
Qed.

Lemma do_stateESign_ok d c : decoder_ok d → decoder_ok (json.do_stateESign d c).
Proof. intros H. unfold json.do_stateESign. destruct (is_digit c); exact H. Qed.

#[local] Hint Resolve take_byte_ok error_ok end_literal_ok do_stateEndTop_ok
  do_stateEndValue_ok do_stateBeginValue_ok do_stateBeginString_ok end_number_ok
  do_state0_ok do_stateESign_ok : decoder.

Lemma scan_step_ok d c : decoder_ok d → decoder_ok (json.scan_step d c).
Proof.
  intros H. unfold json.scan_step. cbv zeta.
  destruct (json.step d);
    repeat match goal with
           | |- decoder_ok (if ?b then _ else _) => destruct b
           end; auto with decoder.
  destruct (json.parseState d) as [|[m key|m key|elems] ps] eqn:Hps; auto with decoder.
  apply do_stateEndValue_ok.
  destruct H as [Hframes Htop]. rewrite Hps in Hframes.
  apply Forall_cons in Hframes as [Hf Hps'].
  split; cbn; [constructor; assumption | exact Htop].
Qed.

Lemma scan_bytes_ok data : ∀ d, decoder_ok d → decoder_ok (json.scan_bytes d data).
Proof.
  induction data as [|c data IH]; intros d H; [exact H|].
  cbn [json.scan_bytes]. apply IH, scan_step_ok, H.
Qed.

(** Whatever [Unmarshal] returns is made of nil, booleans, [float64]s,
    strings, slices and maps only. *)
Lemma Unmarshal_json data v : json.Unmarshal data = Some v → json_value v.
Proof.
  unfold json.Unmarshal, json.eof.
  set (d := json.scan_bytes _ data).
  assert (Hd : decoder_ok d).
  { apply scan_bytes_ok. split; cbn; [constructor | discriminate]. }
  destruct (json.is_error d); [discriminate|].
  destruct (json.endTop d).
  - destruct (json.savedError d); [discriminate|]. apply Hd.
  - pose proof (scan_step_ok d " " Hd) as Hd'.
    destruct (_ && _); [|discriminate].
    destruct (json.savedError _); [discriminate|]. apply Hd'.
Qed.

(** X4: whatever the JSON step stores, at any depth of nesting, is
    nil, a boolean, a [float64], a string, a slice or a map: a number
    inside a JSON value is never kept as a big integer or a 256-bit
    decimal. *)
Theorem coercion_json_values value x :
  chosen_tag value = TagJSON → coercion value = Returns x → json_value x.
Proof.
  unfold chosen_tag, coercion.
  destruct (big.Int_SetString value); [discriminate|].
  destruct (ParseFloat_returns value 256 big.ToNearestEven ltac:(lia)) as [o ->].
  cbn [mbind outcome_bind].
  destruct o; [discriminate|].
  destruct (strconv.ParseBool value); [discriminate|].
  destruct (json.Unmarshal value) as [decoded|] eqn:Hjson; [|discriminate].
  intros _ [= <-]. exact (Unmarshal_json _ _ Hjson).
Qed.

Lemma coercion_json_values_witness :
  chosen_tag "[12345678901234567890]" = TagJSON
  ∧ coercion "[12345678901234567890]"
    = Returns (VSlice [VFloat64 (S754_finite false 6028163525993441 11)])
  ∧ json_value (VSlice [VFloat64 (S754_finite false 6028163525993441 11)]).
Proof.
  assert (Htag : chosen_tag "[12345678901234567890]" = TagJSON) by (vm_compute; reflexivity).
  assert (Hco : coercion "[12345678901234567890]"
                = Returns (VSlice [VFloat64 (S754_finite false 6028163525993441 11)]))
    by (vm_compute; reflexivity).
  split; [exact Htag|]. split; [exact Hco|].
  exact (coercion_json_values _ _ Htag Hco).
Defined.

End DecoderValues.

(** * Which values reach which step *)

Section Steps.

(** X5: [Add] stores a big integer exactly for the literals of the
    integer grammar (an optional sign and digits, nothing else), and
    the integer stored is the one the literal denotes. *)
Theorem coercion_integer_iff (value : string) (i : Z) :
  coercion value = Returns (VBigInt i)
  ↔ int_literal value = true ∧ i = int_literal_value value.
Proof.
  split.
  - unfold coercion.
    destruct (big.Int_SetString value) as [i'|] eqn:Hint.
    { intros [= <-]. exact (Int_SetString_grammar _ _ Hint). }
    destruct (ParseFloat_returns value 256 big.ToNearestEven ltac:(lia)) as [o ->].
    cbn [mbind outcome_bind].
    destruct o; [discriminate|].
    destruct (strconv.ParseBool value); [discriminate|].
    destruct (json.Unmarshal value) as [decoded|] eqn:Hjson; [|discriminate].
    intros [= ->]. apply Unmarshal_json in Hjson. inversion Hjson.
  - intros [Hlit ->]. unfold coercion.
    rewrite (Int_SetString_literal _ Hlit). reflexivity.
Qed.

Lemma ParseBool_spellings value b :
  strconv.ParseBool value = Some b →
  value = "1" ∨ value = "0" ∨ In value (bool_spellings b).
Proof.
  unfold strconv.ParseBool.
  repeat match goal with
         | |- context [ String.eqb value ?s ] =>
             destruct (String.eqb_spec value s) as [->|?]
         end; cbn [orb]; intros [= <-]; cbn; tauto.
Qed.

(** X6: the boolean step is reached by ten spellings only: [t], [T],
    [TRUE], [true], [True] give [true] and [f], [F], [FALSE], [false],
    [False] give [false]; the spellings [1] and [0] of
    [strconv.ParseBool] never get there, they are integers. *)
Theorem coercion_boolean_iff (value : string) (b : bool) :
  (chosen_tag value = TagBoolean ∧ coercion value = Returns (VBool b))
  ↔ In value (bool_spellings b).
Proof.
  split.
  - intros [Htag Hco].
    assert (Hb : strconv.ParseBool value = Some b).
    { revert Htag Hco. unfold chosen_tag, coercion.
      destruct (big.Int_SetString value); [discriminate|].
      destruct (ParseFloat_returns value 256 big.ToNearestEven ltac:(lia)) as [o ->].
      cbn [mbind outcome_bind].
      destruct o; [discriminate|].
      destruct (strconv.ParseBool value) as [b'|].
      - intros _ [= ->]. reflexivity.
      - destruct (json.Unmarshal value); discriminate. }
    destruct (ParseBool_spellings _ _ Hb) as [-> | [-> | Hin]].
    + vm_compute in Htag. discriminate Htag.
    + vm_compute in Htag. discriminate Htag.
    + exact Hin.
  - destruct b; cbn [bool_spellings In];
      intros H; repeat destruct H as [<- | H]; try contradiction;
      split; vm_compute; reflexivity.
Qed.

Lemma nat_scan_loop_frac_digits s :
  ∀ z count dp, all_digits s = true →
    big.nat_scan_loop true z count dp s
    = (digits_value z s, count + strlen s, dp, EmptyString).
Proof.
  induction s as [|c s IH]; intros z count dp Hd; cbn [all_digits] in Hd.
  - unfold strlen. cbn. rewrite Z.add_0_r. reflexivity.
  - apply andb_true_iff in Hd as [Hc Hs].
    destruct (is_digit_digit_val c Hc) as [Hv Hlt].
    cbn [big.nat_scan_loop].
    destruct (Ascii.eqb_spec c ".") as [->|_]; [discriminate Hc|].
    cbn [andb]. cbv zeta.
    destruct (Z.leb_spec 10 (big.digit_val c)); [lia|].
    rewrite IH by exact Hs. cbn [digits_value].
    rewrite Hv, N2Z.id. unfold strlen. cbn [String.length].
    rewrite Nat2Z.inj_succ, <- Z.add_1_l, Z.add_assoc. reflexivity.
Qed.

Lemma wrap64_small z : 0 <= z <= big.MaxExp → wrap64 z = z.
Proof.
  unfold wrap64, big.MaxExp. intros Hz.
  rewrite Z.mod_small by lia. lia.
Qed.

(** The scan of digits (after the sign) as a float. *)
Lemma Float_scan_digits ds sign (z : big.Float) r :
  all_digits ds = true → ds ≠ EmptyString →
  big.scanSign r = Some (sign, ds) →
  big.bitLen (digits_value 0 ds) <= big.MaxExp →
  big.prec z = 256 → big.mode z = big.ToNearestEven →
  big.Float_scan z r
  = Returns (Some
      (if (digits_value 0 ds =? 0)%N
       then big.mkFloat 256 big.ToNearestEven sign big.zero 0 0
       else big.Float_round
              (big.mkFloat 256 big.ToNearestEven sign big.finite (digits_value 0 ds)
                           (big.bitLen (digits_value 0 ds))) false,
       EmptyString)).
Proof.
  intros Hd Hne Hsign Hbits Hprec Hmode. unfold big.Float_scan.
  rewrite Hsign, Hprec, Hmode. cbv zeta.
  change (256 =? 0) with false. cbv iota.
  unfold big.nat_scan. rewrite nat_scan_loop_frac_digits by exact Hd.
  destruct ds as [|c ds']; [congruence|].
  pose proof (strlen_pos c ds') as Hlen.
  set (ds := String c ds') in *.
  destruct (Z.eqb_spec (0 + strlen ds) 0); [lia|].
  change (0 <=? -1) with false. cbv iota.
  cbn [big.scanExponent].
  destruct (digits_value 0 ds =? 0)%N eqn:Hzero; [reflexivity|].
  destruct (Z.ltb_spec (0 + strlen ds) 0); [lia|].
  change (10 =? 10) with true. cbv iota.
  assert (Hpos : 0 <= big.bitLen (digits_value 0 ds)).
  { unfold big.bitLen. lia. }
  rewrite Z.add_0_r, wrap64_small by lia.
  change (wrap64 (0 + 0)) with 0.
  destruct (Z.leb_spec big.MinExp (big.bitLen (digits_value 0 ds))) as [_|Hlow];
    [|unfold big.MinExp in Hlow; lia].
  destruct (Z.leb_spec (big.bitLen (digits_value 0 ds)) big.MaxExp); [|lia].
  reflexivity.
Qed.

Lemma int_literal_not_inf s :
  int_literal s = true →
  String.eqb s "Inf" || String.eqb s "inf" = false
  ∧ String.eqb s "+Inf" || String.eqb s "+inf" = false
  ∧ String.eqb s "-Inf" || String.eqb s "-inf" = false.
Proof.
  intros Hlit.
  repeat match goal with
         | |- context [ String.eqb s ?t ] =>
             destruct (String.eqb_spec s t) as [->|?]; [discriminate Hlit|]
         end.
  repeat split.
Qed.

(** X7: the decimal parser would take every integer literal too (as
    long as its magnitude has no more bits than a float exponent can
    count), and would round it to 256 bits; it is the order of the
    chain that makes [Add] keep such a literal as an exact integer. *)
Theorem integer_literal_is_decimal_too (s : string) :
  int_literal s = true →
  big.bitLen (Z.abs_N (int_literal_value s)) <= big.MaxExp →
  big.ParseFloat s 256 big.ToNearestEven = Returns (Some (float_of_int_literal s))
  ∧ chosen_tag s = TagInteger
  ∧ coercion s = Returns (VBigInt (int_literal_value s)).
Proof.
  intros Hlit Hbits.
  pose proof (Int_SetString_literal s Hlit) as Hset.
  split; [|split; [unfold chosen_tag | unfold coercion]; rewrite Hset; reflexivity].
  destruct (int_literal_not_inf s Hlit) as (H1 & H2 & H3).
  unfold big.ParseFloat, big.Float_Parse. rewrite H1, H2, H3.
  clear Hset H1 H2 H3.
  revert Hlit Hbits. unfold float_of_int_literal, int_literal, int_literal_value.
  destruct s as [|c s]; [discriminate|].
  destruct (Ascii.eqb_spec c "-") as [->|Hm]; cbn [orb].
  - intros Hlit Hbits. apply andb_true_iff in Hlit as [Hd Hne].
    assert (s ≠ EmptyString) by (intros ->; discriminate Hne).
    rewrite Zabs2N.inj_opp, Zabs2N.id in *.
    rewrite (Float_scan_digits s true) by (auto; reflexivity).
    reflexivity.
  - destruct (Ascii.eqb_spec c "+") as [->|Hp]; cbn [orb].
    + intros Hlit Hbits. apply andb_true_iff in Hlit as [Hd Hne].
      assert (s ≠ EmptyString) by (intros ->; discriminate Hne).
      rewrite Zabs2N.id in *.
      rewrite (Float_scan_digits s false) by (auto; reflexivity).
      reflexivity.
    + intros Hd Hbits.
      rewrite Zabs2N.id in *.
      rewrite (Float_scan_digits (String c s) false)
        by (auto; try discriminate; apply scanSign_digits; auto; discriminate).
      reflexivity.
Qed.

Lemma integer_literal_is_decimal_too_witness :
  int_literal "-115792089237316195423570985008687907853269984665640564039457584007913129639937" = true
  ∧ big.bitLen (Z.abs_N (int_literal_value
       "-115792089237316195423570985008687907853269984665640564039457584007913129639937"))
    <= big.MaxExp
  ∧ big.ParseFloat "-115792089237316195423570985008687907853269984665640564039457584007913129639937"
      256 big.ToNearestEven
    = Returns (Some (float_of_int_literal
        "-115792089237316195423570985008687907853269984665640564039457584007913129639937"))
  ∧ chosen_tag "-115792089237316195423570985008687907853269984665640564039457584007913129639937"
    = TagInteger
  ∧ coercion "-115792089237316195423570985008687907853269984665640564039457584007913129639937"
    = Returns (VBigInt (int_literal_value
        "-115792089237316195423570985008687907853269984665640564039457584007913129639937")).
Proof.
  split; [reflexivity|]. split; [vm_compute; discriminate|].
  apply integer_literal_is_decimal_too; [reflexivity | vm_compute; discriminate].
Defined.

End Steps.

(** * The numbers [Add] stores are written as JSON numbers *)

Section NumberText.

Lemma byte_val_inj c c' : byte_val c = byte_val c' → c = c'.
Proof.
  unfold byte_val. intros H. apply N2Z.inj in H.
  rewrite <- (ascii_N_embedding c), <- (ascii_N_embedding c'), H. reflexivity.
Qed.

(** A digit differs from any byte that is no digit. *)
Lemma digit_not c x : is_digit c = true → is_digit x = false → Ascii.eqb c x = false.
Proof.
  intros Hc Hx. destruct (Ascii.eqb_spec c x) as [->|_]; [congruence | reflexivity].
Qed.

Lemma digit_range c : is_digit c = true → 48 <= byte_val c <= 57.
Proof.
  unfold is_digit. change (byte_val "0") with 48. change (byte_val "9") with 57.
  intros H. apply andb_true_iff in H as [H1 H2].
  apply Z.leb_le in H1, H2. lia.
Qed.

Lemma digit_not_space c : is_digit c = true → json.isSpace c = false.
Proof.
  intros Hc. pose proof (digit_range c Hc) as Hr. unfold json.isSpace.
  rewrite (digit_not c " " Hc eq_refl).
  destruct (Z.eqb_spec (byte_val c) 9); [lia|].
  destruct (Z.eqb_spec (byte_val c) 13); [lia|].
  destruct (Z.eqb_spec (byte_val c) 10); [lia|]. reflexivity.
Qed.

Lemma nonzero_digit_range c :
  is_digit c = true → c ≠ "0"%char →
  (byte_val "1" <=? byte_val c) && (byte_val c <=? byte_val "9") = true.
Proof.
  intros Hc Hnz. pose proof (digit_range c Hc) as Hr.
  assert (byte_val c ≠ 48).
  { intros H. apply Hnz. apply byte_val_inj. exact H. }
  change (byte_val "1") with 49. change (byte_val "9") with 57.
  apply andb_true_iff. split; apply Z.leb_le; lia.
Qed.

(** ** Single steps of the scanner inside a number *)

Ltac enter Hin :=
  destruct Hin as (Hstep & Hstack & Htop);
  unfold json.scan_step; rewrite Hstep; cbv zeta.

Ltac leave := repeat split; cbn; assumption.

Lemma step_begin_minus d :
  in_number json.stateBeginValue d → in_number json.stateNeg (json.scan_step d "-").
Proof. intros Hin. enter Hin. leave. Qed.

Lemma step_begin_zero d :
  in_number json.stateBeginValue d → in_number json.state0 (json.scan_step d "0").
Proof. intros Hin. enter Hin. leave. Qed.

Lemma step_begin_nonzero d c :
  is_digit c = true → c ≠ "0"%char →
  in_number json.stateBeginValue d → in_number json.state1 (json.scan_step d c).
Proof.
  intros Hc Hnz Hin. enter Hin. unfold json.do_stateBeginValue.
  rewrite (digit_not_space c Hc).
  rewrite (digit_not c "{" Hc eq_refl), (digit_not c "[" Hc eq_refl),
    (digit_not c dquote Hc eq_refl), (digit_not c "-" Hc eq_refl).
  destruct (Ascii.eqb_spec c "0"); [contradiction|].
  rewrite (digit_not c "t" Hc eq_refl), (digit_not c "f" Hc eq_refl),
    (digit_not c "n" Hc eq_refl).
  rewrite (nonzero_digit_range c Hc Hnz). leave.
Qed.

Lemma step_neg_zero d :
  in_number json.stateNeg d → in_number json.state0 (json.scan_step d "0").
Proof. intros Hin. enter Hin. leave. Qed.

Lemma step_neg_nonzero d c :
  is_digit c = true → c ≠ "0"%char →
  in_number json.stateNeg d → in_number json.state1 (json.scan_step d c).
Proof.
  intros Hc Hnz Hin. enter Hin.
  destruct (Ascii.eqb_spec c "0"); [contradiction|].
  rewrite (nonzero_digit_range c Hc Hnz). leave.
Qed.

Lemma step_state1_digit d c :
  is_digit c = true → in_number json.state1 d → in_number json.state1 (json.scan_step d c).
Proof. intros Hc Hin. enter Hin. rewrite Hc. leave. Qed.

Lemma step_int_dot st d :
  st = json.state0 ∨ st = json.state1 →
  in_number st d → in_number json.stateDot (json.scan_step d ".").
Proof. intros [-> | ->] Hin; enter Hin; leave. Qed.

Lemma step_int_e st d :
  st = json.state0 ∨ st = json.state1 →
  in_number st d → in_number json.stateE (json.scan_step d "e").
Proof. intros [-> | ->] Hin; enter Hin; leave. Qed.

Lemma step_dot_digit d c :
  is_digit c = true → in_number json.stateDot d → in_number json.stateDot0 (json.scan_step d c).
Proof. intros Hc Hin. enter Hin. rewrite Hc. leave. Qed.

Lemma step_dot0_digit d c :
  is_digit c = true → in_number json.stateDot0 d → in_number json.stateDot0 (json.scan_step d c).
Proof. intros Hc Hin. enter Hin. rewrite Hc. leave. Qed.

Lemma step_dot0_e d :
  in_number json.stateDot0 d → in_number json.stateE (json.scan_step d "e").
Proof. intros Hin. enter Hin. leave. Qed.

Lemma step_e_sign d c :
  c = "+"%char ∨ c = "-"%char →
  in_number json.stateE d → in_number json.stateESign (json.scan_step d c).
Proof. intros [-> | ->] Hin; enter Hin; leave. Qed.

Lemma step_esign_digit d c :
  is_digit c = true → in_number json.stateESign d → in_number json.stateE0 (json.scan_step d c).
Proof. intros Hc Hin. enter Hin. unfold json.do_stateESign. rewrite Hc. leave. Qed.

Lemma step_e0_digit d c :
  is_digit c = true → in_number json.stateE0 d → in_number json.stateE0 (json.scan_step d c).
Proof. intros Hc Hin. enter Hin. rewrite Hc. leave. Qed.

(** At the end of the input a number that may end there is complete. *)
Lemma number_end_eof st d :
  number_end st → in_number st d → ∃ d', json.eof d = Some d'.
Proof.
  intros Hend (Hstep & Hstack & Htop).
  assert (Hfinish : ∀ c, json.isSpace c = true →
            json.endTop (json.end_number d c) = true
            ∧ json.is_error (json.end_number d c) = false).
  { intros c Hc. unfold json.end_number, json.end_literal.
    destruct (json.literalInterface _) as [v err].
    unfold json.store. rewrite Hstack.
    unfold json.do_stateEndValue. cbn [json.parseState].
    unfold json.do_stateEndTop. rewrite Hc. split; reflexivity. }
  unfold json.eof, json.is_error. rewrite Hstep, Htop.
  assert (Hspace : json.scan_step d " " = json.end_number d " ").
  { unfold json.scan_step. rewrite Hstep. cbv zeta.
    destruct Hend as [-> | [-> | [-> | ->]]]; reflexivity. }
  destruct (Hfinish " "%char eq_refl) as [Het Herr].
  rewrite Hspace. unfold json.is_error in Herr.
  destruct Hend as [-> | [-> | [-> | ->]]]; rewrite Het; cbn [andb];
    destruct (json.step (json.end_number d " ")); try discriminate Herr; eexists; reflexivity.
Qed.

(** ** Runs *)

Lemma scan_bytes_list s d : json.scan_bytes d s = scan_list d (list_ascii_of_string s).
Proof.
  revert d. induction s as [|c s IH]; intros d; [reflexivity|].
  cbn [json.scan_bytes list_ascii_of_string]. rewrite IH. reflexivity.
Qed.

Lemma run_nil st : run st [] st.
Proof. intros d H. exact H. Qed.

Lemma run_app a b c l1 l2 : run a l1 b → run b l2 c → run a (l1 ++ l2) c.
Proof.
  intros H1 H2 d Hd. unfold scan_list. rewrite fold_left_app.
  apply H2, H1, Hd.
Qed.

Lemma run_one a b c :
  (∀ d, in_number a d → in_number b (json.scan_step d c)) → run a [c] b.
Proof. intros H d Hd. apply H, Hd. Qed.

Lemma run_cons a b c x l :
  (∀ d, in_number a d → in_number b (json.scan_step d x)) → run b l c → run a (x :: l) c.
Proof. intros H1 H2. apply (run_app a b c [x] l); [apply run_one, H1 | exact H2]. Qed.

Lemma run_digits st l :
  (∀ d c, is_digit c = true → in_number st d → in_number st (json.scan_step d c)) →
  digits l → run st l st.
Proof.
  intros Hstep Hl. induction Hl as [|c l Hc _ IH]; [apply run_nil|].
  apply (run_cons st st st); [intros d; apply Hstep, Hc | exact IH].
Qed.

(** A run from the start into a state where a number may end is a
    valid JSON text. *)
Lemma run_valid l st :
  run json.stateBeginValue l st → number_end st →
  json.Valid (string_of_list_ascii l) = true.
Proof.
  intros Hrun Hend. unfold json.Valid.
  rewrite scan_bytes_list, list_ascii_of_string_of_list_ascii.
  set (d0 := json.mkState json.stateBeginValue [] EmptyString None false false).
  assert (Hstart : in_number json.stateBeginValue d0) by (repeat split).
  destruct (number_end_eof st _ Hend (Hrun d0 Hstart)) as [d' ->].
  reflexivity.
Qed.

Lemma all_digits_list s : all_digits s = true → digits (list_ascii_of_string s).
Proof.
  induction s as [|c s IH]; cbn [all_digits list_ascii_of_string]; [constructor|].
  intros H. apply andb_true_iff in H as [Hc Hs].
  constructor; [exact Hc | apply IH, Hs].
Qed.

(** The integer part: after an optional minus, ["0"] alone or a
    non-zero digit and more digits. *)
Lemma run_int (neg : bool) c rest :
  is_digit c = true → digits rest → (c = "0"%char → rest = []) →
  run json.stateBeginValue
      ((if neg then ["-"%char] else []) ++ c :: rest)
      (if Ascii.eqb c "0" then json.state0 else json.state1).
Proof.
  intros Hc Hrest Hzero.
  apply (run_app _ (if neg then json.stateNeg else json.stateBeginValue)).
  { destruct neg; [apply run_one, step_begin_minus | apply run_nil]. }
  destruct (Ascii.eqb_spec c "0") as [->|Hnz].
  - rewrite (Hzero eq_refl).
    destruct neg; apply run_one; [apply step_neg_zero | apply step_begin_zero].
  - apply (run_cons _ json.state1).
    + destruct neg; intros d; [apply step_neg_nonzero | apply step_begin_nonzero]; assumption.
    + apply run_digits; [apply step_state1_digit | exact Hrest].
Qed.

(** ** Integers *)

Lemma byte_of_digit_nonzero (k : N) :
  (k < 10)%N → k ≠ 0%N → byte_of (byte_val "0" + Z.of_N k) ≠ "0"%char.
Proof.
  intros Hk Hnz Heq. apply (f_equal byte_val) in Heq.
  change (byte_val "0") with 48 in Heq.
  rewrite byte_val_byte_of in Heq by lia. lia.
Qed.

Lemma utoa_loop_head fuel :
  ∀ n acc, n ≠ 0%N → (n < 2 ^ N.of_nat fuel)%N →
    ∃ c rest, utoa_loop fuel n acc = String c rest ∧ c ≠ "0"%char.
Proof.
  induction fuel as [|fuel IH]; intros n acc Hnz Hn.
  - cbn in Hn. lia.
  - cbn [utoa_loop]. cbv zeta.
    destruct (N.eqb_spec (n / 10) 0) as [H0|H0].
    + eexists _, _. split; [reflexivity|].
      apply byte_of_digit_nonzero.
      * apply N.mod_upper_bound. discriminate.
      * pose proof (N.div_mod n 10 ltac:(discriminate)). lia.
    + apply IH; [exact H0|].
      rewrite Nat2N.inj_succ, N.pow_succ_r' in Hn.
      apply N.Div0.div_lt_upper_bound. lia.
Qed.

(** The digits of a magnitude: ["0"], or a non-zero digit and more. *)
Lemma utoa_shape n :
  ∃ c rest, list_ascii_of_string (utoa n) = c :: rest
            ∧ is_digit c = true ∧ digits rest
            ∧ (c = "0"%char → rest = []).
Proof.
  pose proof (all_digits_list _ (utoa_digits n)) as Hd.
  destruct (N.eq_dec n 0%N) as [->|Hnz].
  - exists "0"%char, []. repeat split; constructor.
  - destruct (utoa_loop_head (N.to_nat (N.size n)) n EmptyString Hnz) as (c & rest & Heq & Hc).
    { rewrite N2Nat.id. apply N.size_gt. }
    unfold utoa in *. rewrite Heq in *. cbn [list_ascii_of_string] in *.
    apply Forall_cons in Hd as [Hcd Hrest].
    exists c, (list_ascii_of_string rest). repeat split; try assumption.
    intros ->. contradiction.
Qed.

Lemma itoa_list x :
  list_ascii_of_string (itoa x)
  = (if x <? 0 then ["-"%char] else []) ++ list_ascii_of_string (utoa (Z.abs_N x)).
Proof. unfold itoa. destruct (x <? 0); reflexivity. Qed.

(** X8: the text of a stored big integer, whatever its size or sign, is
    a JSON number: the encoder's check of what [MarshalJSON] returns
    never fails on an integer. *)
Theorem Int_String_valid_json (i : Z) : json.Valid (big.Int_String i) = true.
Proof.
  unfold big.Int_String.
  rewrite <- (string_of_list_ascii_of_string (itoa i)), itoa_list.
  destruct (utoa_shape (Z.abs_N i)) as (c & rest & -> & Hc & Hrest & Hzero).
  eapply run_valid.
  - apply (run_int (i <? 0) c rest Hc Hrest Hzero).
  - destruct (Ascii.eqb c "0"); [left | right; left]; reflexivity.
Qed.

End NumberText.

(** * The text of a decimal *)

Section DecimalText.

(** ** Decimal mantissas stay well formed *)

Lemma strip_leading_suffix x l : ∃ h, l = h ++ big.strip_leading x l.
Proof.
  induction l as [|c l [h IH]]; [exists []; reflexivity|].
  cbn [big.strip_leading]. destruct (Ascii.eqb c x).
  - exists (c :: h). cbn. rewrite <- IH. reflexivity.
  - exists []. reflexivity.
Qed.

Lemma strip_leading_head x l c l' : big.strip_leading x l = c :: l' → c ≠ x.
Proof.
  induction l as [|c0 l IH]; [discriminate|].
  cbn [big.strip_leading]. destruct (Ascii.eqb_spec c0 x) as [->|Hne].
  - exact IH.
  - intros [= <- _]. exact Hne.
Qed.

Lemma strip_leading_last x l c : c ≠ x → ∃ l', big.strip_leading x (l ++ [c]) = l' ++ [c].
Proof.
  intros Hc. induction l as [|c0 l [l' IH]]; cbn [app big.strip_leading].
  - destruct (Ascii.eqb_spec c x); [contradiction|]. exists []. reflexivity.
  - destruct (Ascii.eqb c0 x); [exists l'; exact IH | exists (c0 :: l); reflexivity].
Qed.

Lemma strip_trailing_prefix x l : ∃ t, l = big.strip_trailing x l ++ t.
Proof.
  unfold big.strip_trailing.
  destruct (strip_leading_suffix x (rev l)) as [h Hh].
  exists (rev h). rewrite <- rev_app_distr, <- Hh, rev_involutive. reflexivity.
Qed.

Lemma strip_trailing_head x c l : c ≠ x → ∃ l', big.strip_trailing x (c :: l) = c :: l'.
Proof.
  intros Hc. unfold big.strip_trailing. cbn [rev].
  destruct (strip_leading_last x (rev l) c Hc) as [l' ->].
  exists (rev l'). rewrite rev_app_distr. reflexivity.
Qed.

Lemma digits_prefix l l' : digits (l ++ l') → digits l.
Proof. intros H. apply Forall_app in H as [H _]. exact H. Qed.

Lemma strip_trailing_digits x l : digits l → digits (big.strip_trailing x l).
Proof.
  intros Hl. destruct (strip_trailing_prefix x l) as [t Ht].
  rewrite Ht in Hl. exact (digits_prefix _ _ Hl).
Qed.

(** Stripping trailing zeros of digits that start with a non-zero
    digit gives a mantissa. *)
Lemma stripped_ok l e :
  digits l → (∀ c l', l = c :: l' → c ≠ "0"%char) → l ≠ [] →
  decimal_ok (big.mkDecimal (big.strip_trailing "0" l) e).
Proof.
  intros Hl Hhead Hne. split; cbn [big.dmant big.dexp].
  - apply strip_trailing_digits, Hl.
  - destruct l as [|c l']; [congruence|].
    destruct (strip_trailing_head "0" c l' (Hhead c l' eq_refl)) as [t ->].
    exact (Hhead c l' eq_refl).
Qed.

Lemma utoa_head_nonzero n :
  n ≠ 0%N →
  digits (list_ascii_of_string (utoa n))
  ∧ list_ascii_of_string (utoa n) ≠ []
  ∧ ∀ c l', list_ascii_of_string (utoa n) = c :: l' → c ≠ "0"%char.
Proof.
  intros Hnz. split; [apply all_digits_list, utoa_digits|].
  destruct (utoa_loop_head (N.to_nat (N.size n)) n EmptyString Hnz) as (c & rest & Heq & Hc).
  { rewrite N2Nat.id. apply N.size_gt. }
  unfold utoa. rewrite Heq. cbn [list_ascii_of_string].
  split; [discriminate|]. intros c' l' [= <- _]. exact Hc.
Qed.

Lemma trailingZeroBits_lt_size m : m ≠ 0%N → big.trailingZeroBits m < Z.of_N (N.size m).
Proof.
  destruct m as [|p]; [congruence|]. intros _. cbn [big.trailingZeroBits N.size].
  induction p as [p _|p IH|]; cbn [Pos.size]; lia.
Qed.

Lemma trailingZeroBits_nonneg m : 0 <= big.trailingZeroBits m.
Proof.
  destruct m as [|p]; cbn [big.trailingZeroBits]; [lia|].
  induction p; lia.
Qed.

Lemma decimal_init_ok m shift : decimal_ok (big.decimal_init m shift).
Proof.
  unfold big.decimal_init.
  destruct (N.eqb_spec m 0) as [->|Hm]; [split; [constructor | reflexivity]|].
  destruct (Z.ltb_spec shift 0) as [Hneg|Hpos].
  - set (s := Z.min (- shift) (big.trailingZeroBits m)).
    assert (Hm' : N.shiftr m (Z.to_N s) ≠ 0%N).
    { apply shiftr_nonzero; [exact Hm|].
      pose proof (trailingZeroBits_lt_size m Hm).
      pose proof (trailingZeroBits_nonneg m). lia. }
    destruct (Z.leb_spec 0 (shift + s)).
    + destruct (utoa_head_nonzero (N.shiftl (N.shiftr m (Z.to_N s)) (Z.to_N (shift + s))))
        as (Hd & Hne & Hhead); [apply shiftl_nonzero, Hm'|].
      apply stripped_ok; assumption.
    + destruct (utoa_head_nonzero (N.shiftr m (Z.to_N s) * 5 ^ Z.to_N (- (shift + s)))%N)
        as (Hd & Hne & Hhead).
      { apply N.neq_mul_0. split; [exact Hm' | apply N.pow_nonzero; discriminate]. }
      apply stripped_ok; assumption.
  - destruct (Z.leb_spec 0 shift); [|lia].
    destruct (utoa_head_nonzero (N.shiftl m (Z.to_N shift))) as (Hd & Hne & Hhead);
      [apply shiftl_nonzero, Hm|].
    apply stripped_ok; assumption.
Qed.

Lemma digits_take n l : digits l → digits (take n l).
Proof.
  intros Hl. rewrite <- (take_drop n l) in Hl. exact (digits_prefix _ _ Hl).
Qed.

Lemma head_take {A} (n : nat) (c : A) (l : list A) :
  (0 < n)%nat → take n (c :: l) = c :: take (pred n) l.
Proof. destruct n; [lia | reflexivity]. Qed.

Lemma roundDown_ok d n : decimal_ok d → decimal_ok (big.roundDown d n).
Proof.
  intros Hd. pose proof Hd as [Hdig Hhead]. unfold big.roundDown.
  destruct (_ || _); [exact Hd|].
  unfold big.trim. cbn [big.dmant big.dexp].
  split; cbn [big.dmant big.dexp].
  - apply strip_trailing_digits, digits_take, Hdig.
  - destruct (big.dmant d) as [|c l].
    + rewrite take_nil. reflexivity.
    + destruct (Z.to_nat n) as [|k]; [reflexivity|].
      cbn [take]. destruct (strip_trailing_head "0" c (take k l) Hhead) as [t ->].
      exact Hhead.
Qed.

Lemma next_digit c :
  is_digit c = true → c ≠ "9"%char →
  is_digit (byte_of (byte_val c + 1)) = true ∧ byte_of (byte_val c + 1) ≠ "0"%char.
Proof.
  intros Hc Hnine. pose proof (digit_range c Hc) as Hr.
  assert (byte_val c ≠ 57).
  { intros H. apply Hnine, byte_val_inj, H. }
  split.
  - unfold is_digit. rewrite byte_val_byte_of by lia.
    change (byte_val "0") with 48. change (byte_val "9") with 57.
    apply andb_true_iff. split; apply Z.leb_le; lia.
  - intros Heq. apply (f_equal byte_val) in Heq.
    rewrite byte_val_byte_of in Heq by lia.
    change (byte_val "0") with 48 in Heq. lia.
Qed.

Lemma roundUp_ok d n : decimal_ok d → decimal_ok (big.roundUp d n).
Proof.
  intros Hd. pose proof Hd as [Hdig Hhead]. unfold big.roundUp.
  destruct (_ || _); [exact Hd|]. cbv zeta.
  rewrite rev_involutive.
  set (prefix := take (Z.to_nat n) (big.dmant d)).
  assert (Hprefix : digits prefix) by (apply digits_take, Hdig).
  destruct (big.strip_leading "9" (rev prefix)) as [|c front] eqn:Hstrip.
  - split; cbn [big.dmant big.dexp]; [repeat constructor | discriminate].
  - pose proof (strip_leading_head _ _ _ _ Hstrip) as Hnine.
    destruct (strip_leading_suffix "9" (rev prefix)) as [h Hh].
    rewrite Hstrip in Hh.
    assert (Hp : prefix = rev front ++ c :: rev h).
    { rewrite <- (rev_involutive prefix), Hh, rev_app_distr. cbn [rev].
      rewrite <- app_assoc. reflexivity. }
    rewrite Hp in Hprefix.
    apply Forall_app in Hprefix as [Hfront Hrest].
    apply Forall_cons in Hrest as [Hc _].
    destruct (next_digit c Hc Hnine) as [Hnext Hnz].
    split; cbn [big.dmant big.dexp].
    + apply Forall_app. split; [exact Hfront | constructor; [exact Hnext | constructor]].
    + destruct (rev front) as [|c0 l0] eqn:Hrf; cbn [app]; [exact Hnz|].
      unfold prefix in Hp.
      destruct (big.dmant d) as [|c1 l1].
      * rewrite take_nil in Hp. discriminate Hp.
      * destruct (Z.to_nat n); [discriminate Hp|].
        cbn [take app] in Hp. injection Hp as <- _. exact Hhead.
Qed.

Lemma dround_ok d n : decimal_ok d → decimal_ok (big.dround d n).
Proof.
  intros Hd. unfold big.dround.
  destruct (_ || _); [exact Hd|].
  destruct (big.shouldRoundUp d n); [apply roundUp_ok | apply roundDown_ok]; exact Hd.
Qed.

Lemma roundShortest_loop_ok d lower upper inclusive rest :
  decimal_ok d → ∀ i, decimal_ok (big.roundShortest_loop d lower upper inclusive i rest).
Proof.
  intros Hd. induction rest as [|m rest IH]; intros i; cbn [big.roundShortest_loop].
  - exact Hd.
  - cbv zeta.
    repeat match goal with
           | |- decimal_ok (if ?b then _ else _) => destruct b
           end; auto using dround_ok, roundDown_ok, roundUp_ok.
Qed.

Lemma roundShortest_ok d x : decimal_ok d → decimal_ok (big.roundShortest d x).
Proof.
  intros Hd. unfold big.roundShortest.
  destruct (big.dmant d); [exact Hd|]. cbv zeta.
  apply roundShortest_loop_ok, Hd.
Qed.

(** The decimal behind the text of a float that is not an infinity. *)
Lemma shortest_decimal_ok (x : big.Float) :
  decimal_ok
    (big.roundShortest
       (match big.fform x with
        | big.finite => big.decimal_init (big.mant x) (big.exp x - big.bitLen (big.mant x))
        | _ => big.mkDecimal [] 0
        end) x).
Proof.
  apply roundShortest_ok.
  destruct (big.fform x); first [apply decimal_init_ok | split; [constructor | reflexivity]].
Qed.

(** ** The two formats *)

Lemma list_ascii_of_string_append s1 s2 :
  list_ascii_of_string (s1 +:+ s2) = list_ascii_of_string s1 ++ list_ascii_of_string s2.
Proof.
  induction s1 as [|c s1 IH]; [reflexivity|].
  simpl. f_equal. exact IH.
Qed.

Lemma digits_repeat_zero k : digits (repeat "0"%char k).
Proof. induction k; constructor; [reflexivity | assumption]. Qed.

Lemma dat_digit d i : digits (big.dmant d) → is_digit (big.dat d i) = true.
Proof.
  intros Hd. unfold big.dat.
  destruct (_ && _); [|reflexivity].
  destruct (nth_in_or_default (Z.to_nat i) (big.dmant d) "0"%char) as [Hin | ->];
    [|reflexivity].
  unfold digits in Hd. rewrite List.Forall_forall in Hd. apply Hd, Hin.
Qed.

Lemma run_fraction st l :
  st = json.state0 ∨ st = json.state1 → digits l → l ≠ [] →
  run st ("."%char :: l) json.stateDot0.
Proof.
  intros Hst Hl Hne. destruct l as [|c l]; [congruence|].
  apply Forall_cons in Hl as [Hc Hl].
  apply (run_cons st json.stateDot); [intros d; apply step_int_dot, Hst|].
  apply (run_cons _ json.stateDot0); [intros d; apply step_dot_digit, Hc|].
  apply run_digits; [apply step_dot0_digit | exact Hl].
Qed.

Lemma run_exponent st sign l :
  number_end st → st ≠ json.stateE0 →
  sign = "+"%char ∨ sign = "-"%char → digits l → l ≠ [] →
  run st ("e"%char :: sign :: l) json.stateE0.
Proof.
  intros Hst Hne0 Hsign Hl Hne. destruct l as [|c l]; [congruence|].
  apply Forall_cons in Hl as [Hc Hl].
  apply (run_cons st json.stateE).
  { intros d. destruct Hst as [-> | [-> | [-> | ->]]]; [ | | | congruence].
    - apply (step_int_e json.state0). left. reflexivity.
    - apply (step_int_e json.state1). right. reflexivity.
    - apply step_dot0_e. }
  apply (run_cons _ json.stateESign); [intros d; apply step_e_sign, Hsign|].
  apply (run_cons _ json.stateE0); [intros d; apply step_esign_digit, Hc|].
  apply run_digits; [apply step_e0_digit | exact Hl].
Qed.

Lemma int_state_end c :
  number_end (if Ascii.eqb c "0" then json.state0 else json.state1)
  ∧ ((if Ascii.eqb c "0" then json.state0 else json.state1) = json.state0
     ∨ (if Ascii.eqb c "0" then json.state0 else json.state1) = json.state1).
Proof.
  destruct (Ascii.eqb c "0"); split;
    first [left; reflexivity | right; left; reflexivity | right; reflexivity].
Qed.

(** [fmtF] after an optional minus is a JSON number. *)
Lemma fmtF_run (neg : bool) p d :
  decimal_ok d →
  ∃ st, number_end st
        ∧ run json.stateBeginValue
              ((if neg then ["-"%char] else []) ++ list_ascii_of_string (big.fmtF p d)) st.
Proof.
  intros [Hdig Hhead]. unfold big.fmtF. cbv zeta.
  rewrite list_ascii_of_string_of_list_ascii.
  set (frac := if 0 <? p then _ else _).
  assert (Hint : ∃ c rest,
            (if 0 <? big.dexp d
             then take (Z.to_nat (Z.min (big.dlen d) (big.dexp d))) (big.dmant d)
                  ++ repeat "0"%char (Z.to_nat (big.dexp d - Z.min (big.dlen d) (big.dexp d)))
             else ["0"%char]) = c :: rest
            ∧ is_digit c = true ∧ digits rest ∧ (c = "0"%char → rest = [])).
  { destruct (Z.ltb_spec 0 (big.dexp d)) as [Hpos|_].
    - unfold big.dlen. destruct (big.dmant d) as [|c l]; [lia|].
      apply Forall_cons in Hdig as [Hc Hl].
      rewrite head_take by (cbn [length]; lia).
      exists c, (take (pred (Z.to_nat (Z.min (Z.of_nat (length (c :: l))) (big.dexp d)))) l
                 ++ repeat "0"%char
                      (Z.to_nat (big.dexp d - Z.min (Z.of_nat (length (c :: l))) (big.dexp d)))).
      split; [reflexivity|]. split; [exact Hc|]. split.
      + apply Forall_app. split; [apply digits_take, Hl | apply digits_repeat_zero].
      + intros ->. contradiction.
    - exists "0"%char, []. repeat split; constructor. }
  destruct Hint as (c & rest & -> & Hc & Hrest & Hzero).
  destruct (int_state_end c) as [Hend Hint].
  pose proof (run_int neg c rest Hc Hrest Hzero) as Hrun.
  destruct (Z.ltb_spec 0 p) as [Hp|_]; subst frac.
  - exists json.stateDot0. split; [right; right; left; reflexivity|].
    rewrite app_assoc.
    eapply run_app; [exact Hrun|].
    apply run_fraction; [exact Hint | | ].
    + apply Forall_forall. intros x Hx. apply list_elem_of_In in Hx.
      apply in_map_iff in Hx as (i & <- & _). apply dat_digit, Hdig.
    + destruct (Z.to_nat p) eqn:Hn; [lia | discriminate].
  - eexists. split; [exact Hend|]. rewrite app_nil_r. exact Hrun.
Qed.

(** [fmtE] after an optional minus is a JSON number. *)
Lemma fmtE_run (neg : bool) p d :
  decimal_ok d →
  run json.stateBeginValue
      ((if neg then ["-"%char] else []) ++ list_ascii_of_string (big.fmtE p d))
      json.stateE0.
Proof.
  intros [Hdig Hhead]. unfold big.fmtE, strconv.FormatInt. cbv zeta.
  rewrite list_ascii_of_string_append, list_ascii_of_string_of_list_ascii, itoa_list.
  destruct (Z.ltb_spec (Z.abs (match big.dmant d with [] => 0 | _ => big.dexp d - 1 end)) 0)
    as [Habs|_]; [lia|].
  set (e := Z.abs _).
  set (first := match big.dmant d with c :: _ => c | [] => "0"%char end).
  set (sign := if _ <? 0 then "-"%char else "+"%char).
  set (pad := if e <? 10 then ["0"%char] else []).
  set (more := if 0 <? p then _ else _).
  assert (Hfirst : is_digit first = true).
  { subst first. destruct (big.dmant d) as [|c l]; [reflexivity|].
    apply Forall_cons in Hdig as [Hc _]. exact Hc. }
  assert (Hexp : digits (pad ++ list_ascii_of_string (utoa (Z.abs_N e)))
                 ∧ pad ++ list_ascii_of_string (utoa (Z.abs_N e)) ≠ []).
  { split.
    - apply Forall_app. split.
      + subst pad. destruct (e <? 10); repeat constructor.
      + apply all_digits_list, utoa_digits.
    - intros H. apply app_eq_nil in H as [_ H].
      apply (utoa_nonempty (Z.abs_N e)).
      destruct (utoa (Z.abs_N e)); [reflexivity | discriminate H]. }
  destruct Hexp as [Hexp Hexpne].
  assert (Hsign : sign = "+"%char ∨ sign = "-"%char).
  { subst sign. destruct (_ <? 0); [right | left]; reflexivity. }
  destruct (int_state_end first) as [Hend Hint].
  pose proof (run_int neg first [] Hfirst ltac:(constructor) ltac:(reflexivity)) as Hrun.
  assert (Hshape :
    (if neg then ["-"%char] else [])
    ++ (first :: more ++ ["e"%char; sign] ++ pad) ++ [] ++ list_ascii_of_string (utoa (Z.abs_N e))
    = ((if neg then ["-"%char] else []) ++ [first])
      ++ more ++ "e"%char :: sign :: pad ++ list_ascii_of_string (utoa (Z.abs_N e))).
  { cbn [app]. rewrite <- !app_assoc. cbn [app]. reflexivity. }
  rewrite Hshape. clear Hshape.
  eapply run_app; [exact Hrun|].
  destruct (Z.ltb_spec 0 p) as [Hp|_]; subst more.
  - eapply (run_app _ json.stateDot0).
    + apply run_fraction; [exact Hint | | ].
      * apply Forall_app. split; [|apply digits_repeat_zero].
        destruct (1 <? _); [apply digits_take | constructor].
        rewrite <- (take_drop 1 (big.dmant d)) in Hdig.
        apply Forall_app in Hdig as [_ Hdig]. exact Hdig.
      * intros Hnil. apply (f_equal (@length ascii)) in Hnil.
        rewrite length_app, repeat_length in Hnil. cbn [length] in Hnil.
        unfold big.dlen in *.
        destruct (Z.ltb_spec 1 (Z.min (Z.of_nat (length (big.dmant d))) (p + 1))).
        -- rewrite length_take, length_drop in Hnil. lia.
        -- cbn [length] in Hnil. lia.
    + apply run_exponent; try assumption.
      * right; right; left; reflexivity.
      * discriminate.
  - cbn [app]. apply run_exponent; try assumption.
    destruct Hint as [-> | ->]; discriminate.
Qed.

(** X9: [bigFloat.MarshalJSON] returns a JSON number for every decimal
    that is a zero or finite, and for no infinity: the encoder's check
    of the returned text fails exactly on the infinite decimals. *)
Theorem MarshalJSON_valid_iff (f : bigFloat) :
  json.Valid (MarshalJSON f) = true ↔ big.fform f ≠ big.inf.
Proof.
  split.
  - intros Hvalid Hinf.
    rewrite (MarshalJSON_inf_not_json f Hinf) in Hvalid. discriminate Hvalid.
  - intros Hfin. unfold MarshalJSON, big.MarshalText.
    pose proof (shortest_decimal_ok f) as Hd.
    set (d := big.roundShortest _ f) in *.
    assert (Hbody : ∀ body,
              (∃ st, number_end st
                     ∧ run json.stateBeginValue
                           ((if big.neg f then ["-"%char] else [])
                            ++ list_ascii_of_string body) st) →
              json.Valid ((if big.neg f then "-" else EmptyString) +:+ body) = true).
    { intros body (st & Hend & Hrun).
      rewrite <- (string_of_list_ascii_of_string (_ +:+ body)),
        list_ascii_of_string_append.
      eapply run_valid; [|exact Hend].
      destruct (big.neg f); exact Hrun. }
    destruct (big.fform f) eqn:Hform; [ | | congruence]; cbv zeta;
      fold d;
      match goal with
      | |- context [ if ?b then _ else _ ] => destruct b
      end; apply Hbody;
      first [ apply fmtF_run, Hd
            | exists json.stateE0; split;
              [right; right; right; reflexivity | apply fmtE_run, Hd] ].
Qed.

End DecimalText.

(** * The two recorders and the driver *)

Section Driver.

Implicit Types pairs : list (string * string).

Lemma dest_Add_typed m key value :
  dest_Add (Typed (Values m)) key value
  = Returns (Typed (Values (<[key := default [] (m !! key) ++ [coerced value]]> m))).
Proof.
  unfold dest_Add, recorder_Add, typedValues_Recorder.
  rewrite Add_coerced. reflexivity.
Qed.

Lemma record_typed pairs :
  ∀ m, ∃ m',
    record (Typed (Values m)) pairs = Returns (Typed (Values m'))
    ∧ AddAll (Values m) pairs = Returns (Values m').
Proof.
  induction pairs as [|[key value] rest IH]; intros m.
  - exists m. split; reflexivity.
  - cbn [record AddAll]. rewrite dest_Add_typed, Add_coerced. cbn [mbind outcome_bind].
    apply IH.
Qed.

(** What a sequence of calls leaves under each key of the raw
    recorder. *)
Lemma record_raw pairs :
  ∀ m, ∃ m',
    record (Raw (ini.mkValues m)) pairs = Returns (Raw (ini.mkValues m'))
    ∧ ∀ k, m' !! k = match values_of k pairs with
                     | [] => m !! k
                     | vs => Some (default [] (m !! k) ++ vs)
                     end.
Proof.
  induction pairs as [|[key value] rest IH]; intros m.
  - exists m. split; [reflexivity | intros k; reflexivity].
  - cbn [record dest_Add]. unfold recorder_Add, Values_Recorder.
    cbn [ini.Values_Add mbind outcome_bind].
    destruct (IH (<[key := default [] (m !! key) ++ [value]]> m)) as (m' & Hrun & Hlook).
    exists m'. split; [exact Hrun|].
    intros k. rewrite Hlook. cbn [values_of].
    destruct (String.eqb_spec key k) as [->|Hne].
    + rewrite lookup_insert_eq. cbn [from_option id].
      destruct (values_of k rest) as [|v vs].
      * reflexivity.
      * rewrite <- app_assoc. reflexivity.
    + rewrite lookup_insert_ne by exact Hne. reflexivity.
Qed.

(** X10: on the same occurrences the typed recorder and the raw one
    ([-r]) build the same collection up to coercion: the same keys,
    and under each key the same number of values in the same order,
    each typed value being the coercion of the text the raw recorder
    keeps. *)
Theorem typed_is_coerced_raw pairs :
  ∃ mraw mtyped,
    record newRawValues pairs = Returns (Raw (ini.mkValues mraw))
    ∧ record newTypedRecorder pairs = Returns (Typed (Values mtyped))
    ∧ mtyped = (map coerced) <$> mraw.
Proof.
  destruct (record_raw pairs ∅) as (mraw & Hraw & Hlraw).
  destruct (record_typed pairs ∅) as (mtyped & Htyped & Hall).
  destruct (AddAll_lookup pairs ∅) as (m' & Hall' & Hltyped).
  rewrite Hall in Hall'. injection Hall' as <-.
  exists mraw, mtyped. split; [exact Hraw|]. split; [exact Htyped|].
  apply map_eq. intros k.
  rewrite lookup_fmap, Hltyped, Hlraw, !lookup_empty.
  destruct (values_of k pairs); reflexivity.
Qed.

(** ** The driver never panics *)

Lemma dest_Add_allocated dest key value :
  allocated dest → ∃ dest', dest_Add dest key value = Returns dest' ∧ allocated dest'.
Proof.
  destruct dest as [[|m]|[|m]]; cbn [allocated]; try contradiction; intros _.
  - rewrite dest_Add_typed. eexists. split; [reflexivity | exact I].
  - eexists. split; [reflexivity | exact I].
Qed.

Lemma record_allocated pairs :
  ∀ dest, allocated dest → ∃ dest', record dest pairs = Returns dest' ∧ allocated dest'.
Proof.
  induction pairs as [|[key value] rest IH]; intros dest Hd.
  - exists dest. split; [reflexivity | exact Hd].
  - cbn [record].
    destruct (dest_Add_allocated dest key value Hd) as (dest1 & -> & Hd1).
    cbn [mbind outcome_bind]. apply IH, Hd1.
Qed.

Lemma read_allocated E dest rd path stdin :
  allocated dest →
  ∃ dest' ok stdin', read E dest rd path stdin = Returns (dest', ok, stdin') ∧ allocated dest'.
Proof.
  intros Hd. unfold read.
  destruct (String.eqb path "-").
  - destruct (ini_Read E rd stdin) as [[pairs ok] rest].
    destruct (record_allocated pairs dest Hd) as (dest' & -> & Hd').
    exists dest', ok, rest. split; [reflexivity | exact Hd'].
  - destruct (os_Open E path) as [contents|].
    + destruct (ini_Read E rd contents) as [[pairs ok] rest].
      destruct (record_allocated pairs dest Hd) as (dest' & -> & Hd').
      exists dest', ok, stdin. split; [reflexivity | exact Hd'].
    + exists dest, false, stdin. split; [reflexivity | exact Hd].
Qed.

(** The loop returns; on a normal exit it has written one document per
    argument, or, when merging, one document in all; when merging and
    failing it has written nothing. *)
Lemma main_loop_returns E rd merge compact newValues args :
  allocated newValues →
  ∀ values stdin out, allocated values →
    ∃ out' st,
      main_loop E rd merge compact newValues values args stdin out = Returns (out', st)
      ∧ (st = Exit →
         length out' = (length out + if merge then 1 else length args)%nat)
      ∧ (merge = true → st ≠ Exit → out' = out).
Proof.
  intros Hnew. induction args as [|path rest IH]; intros values stdin out Hvalues.
  - cbn [main_loop]. destruct merge; cbn [negb].
    + destruct (Encode E (negb compact) values) as [doc|].
      * exists (out ++ [doc]), Exit. split; [reflexivity|]. split.
        -- intros _. rewrite length_app. reflexivity.
        -- intros _ H. congruence.
      * exists out, FatalEncodeFinal. split; [reflexivity|]. split; [discriminate | reflexivity].
    + exists out, Exit. split; [reflexivity|]. split; [intros _; cbn; lia | discriminate].
  - cbn [main_loop].
    destruct (read_allocated E values rd path stdin Hvalues)
      as (values' & ok & stdin' & -> & Hvalues').
    cbn [mbind outcome_bind]. destruct ok; cbn [negb].
    + destruct merge.
      * apply IH, Hvalues'.
      * destruct (Encode E (negb compact) values') as [doc|].
        -- destruct (IH newValues stdin' (out ++ [doc]) Hnew) as (out' & st & Hrun & Hexit & _).
           exists out', st. split; [exact Hrun|]. split; [|discriminate].
           intros Hst. rewrite (Hexit Hst), length_app. cbn [length]. lia.
        -- exists out, (FatalEncode path). split; [reflexivity|].
           split; discriminate.
    + exists out, (FatalParse path). split; [reflexivity|].
      split; [discriminate | reflexivity].
Qed.

(** X11: whatever the flags, the files, the reader and the encoder do,
    [main] does not panic: it returns or ends in one of its
    [log.Fatalf].  On a normal exit it has written one document per
    argument (one for standard input when there is no argument), or
    exactly one with [-m]; with [-m] a failure means nothing was
    written. *)
Theorem main_returns (E : environment) (fl : flags) (stdin : string) :
  ∃ out st,
    main E fl stdin = Returns (out, st)
    ∧ (st = Exit →
       length out = if flag_m fl then 1%nat
                    else match flag_args fl with [] => 1%nat | args => length args end)
    ∧ (flag_m fl = true → st ≠ Exit → out = []).
Proof.
  unfold main. cbv zeta.
  set (newValues := if flag_r fl then newRawValues else newTypedRecorder).
  assert (Hnew : allocated newValues).
  { subst newValues. destruct (flag_r fl); exact I. }
  set (args := match flag_args fl with [] => ["-"] | _ => flag_args fl end).
  assert (Hargs : length args = match flag_args fl with [] => 1%nat | a => length a end).
  { subst args. destruct (flag_args fl); reflexivity. }
  set (casing := if String.eqb (flag_C fl) "l" then _ else _).
  destruct casing as [c|].
  - destruct (main_loop_returns E (ini.mkReader (flag_s fl) c (flag_t fl)) (flag_m fl)
                (flag_c fl) newValues args Hnew newValues stdin [] Hnew)
      as (out & st & Hrun & Hexit & Hfail).
    exists out, st. split; [exact Hrun|]. split; [|exact Hfail].
    intros Hst. rewrite (Hexit Hst), <- Hargs. reflexivity.
  - exists [], (FatalCasing (flag_C fl)). split; [reflexivity|].
    split; [discriminate | reflexivity].
Qed.

(** ** Merging *)

Lemma record_app pairs1 pairs2 :
  ∀ dest, record dest (pairs1 ++ pairs2) = (dest' ← record dest pairs1; record dest' pairs2).
Proof.
  induction pairs1 as [|[key value] rest IH]; intros dest; [reflexivity|].
  cbn [app record]. destruct (dest_Add dest key value) as [dest1|msg]; [|reflexivity].
  cbn [mbind outcome_bind]. apply IH.
Qed.

(** X12: with [-m] the program records the occurrences of all its
    inputs, in the order of the arguments, into one collection, and
    encodes that collection once after the last input; an input that
    cannot be read ends the run before anything is encoded. *)
Theorem main_loop_merge E rd compact newValues args :
  ∀ values stdin out,
    main_loop E rd true compact newValues values args stdin out
    = (values' ← record values (fst (gather E rd args stdin));
       match snd (gather E rd args stdin) with
       | Some path => Returns (out, FatalParse path)
       | None =>
           match Encode E (negb compact) values' with
           | Some doc => Returns (out ++ [doc], Exit)
           | None => Returns (out, FatalEncodeFinal)
           end
       end).
Proof.
  induction args as [|path rest IH]; intros values stdin out.
  - reflexivity.
  - cbn [main_loop gather]. unfold read.
    destruct (String.eqb path "-").
    + destruct (ini_Read E rd stdin) as [[pairs ok] stdin'].
      destruct ok; cbn [negb].
      * destruct (gather E rd rest stdin') as [more failed] eqn:Hg.
        cbn [fst snd]. rewrite record_app.
        destruct (record values pairs) as [values'|msg]; [|reflexivity].
        cbn [mbind outcome_bind]. rewrite IH, Hg. reflexivity.
      * cbn [fst snd].
        destruct (record values pairs) as [values'|msg]; reflexivity.
    + destruct (os_Open E path) as [contents|].
      * destruct (ini_Read E rd contents) as [[pairs ok] unread].
        destruct ok; cbn [negb].
        -- destruct (gather E rd rest stdin) as [more failed] eqn:Hg.
           cbn [fst snd]. rewrite record_app.
           destruct (record values pairs) as [values'|msg]; [|reflexivity].
           cbn [mbind outcome_bind]. rewrite IH, Hg. reflexivity.
        -- cbn [fst snd].
           destruct (record values pairs) as [values'|msg]; reflexivity.
      * reflexivity.
Qed.

End Driver.

(** * The decimals [Add] stores *)

Section StoredDecimals.

Lemma bitLen_shiftl m k : m ≠ 0%N → big.bitLen (N.shiftl m k) = big.bitLen m + Z.of_N k.
Proof.
  intros Hm. unfold big.bitLen.
  rewrite !N.size_log2 by (try apply shiftl_nonzero; exact Hm).
  rewrite N.log2_shiftl by exact Hm. lia.
Qed.

Lemma bitLen_shiftr m k :
  m ≠ 0%N → (k < N.size m)%N → big.bitLen (N.shiftr m k) = big.bitLen m - Z.of_N k.
Proof.
  intros Hm Hk. unfold big.bitLen.
  rewrite !N.size_log2 by (try apply shiftr_nonzero; assumption).
  rewrite N.log2_shiftr. rewrite N.size_log2 in Hk by exact Hm. lia.
Qed.

Lemma bitLen_bounds m p :
  0 < p → (2 ^ Z.to_N (p - 1) <= m < 2 ^ Z.to_N p)%N → big.bitLen m = p.
Proof.
  intros Hp [Hlo Hhi]. unfold big.bitLen.
  assert (Hm : m ≠ 0%N).
  { intros ->. pose proof (N.pow_nonzero 2 (Z.to_N (p - 1)) ltac:(discriminate)). lia. }
  rewrite N.size_log2 by exact Hm.
  rewrite (N.log2_unique m (Z.to_N (p - 1))); [lia | apply N.le_0_l |].
  split; [exact Hlo|].
  replace (N.succ (Z.to_N (p - 1))) with (Z.to_N p) by lia. exact Hhi.
Qed.

Lemma bitLen_lower m : m ≠ 0%N → (2 ^ Z.to_N (big.bitLen m - 1) <= m)%N.
Proof.
  intros Hm. unfold big.bitLen. rewrite N.size_log2 by exact Hm.
  replace (Z.to_N (Z.of_N (N.succ (N.log2 m)) - 1)) with (N.log2 m) by lia.
  apply N.log2_spec. lia.
Qed.

Lemma bitLen_upper m : (m < 2 ^ Z.to_N (big.bitLen m))%N.
Proof.
  unfold big.bitLen. rewrite N2Z.id. apply N.size_gt.
Qed.

Lemma Float_round_wf z sbit :
  0 < big.prec z → big.fform z = big.finite → big.mant z ≠ 0%N →
  big.MinExp <= big.exp z <= big.MaxExp →
  float_wf (big.prec z) (big.Float_round z sbit).
Proof.
  intros Hp Hf Hm He. unfold big.Float_round. rewrite Hf.
  destruct (Z.leb_spec (big.bitLen (big.mant z)) (big.prec z)) as [Hfit|Hlong].
  - split; cbn; [reflexivity|]. split; [|exact He].
    rewrite bitLen_shiftl by exact Hm.
    pose proof (bitLen_pos _ Hm). lia.
  - cbv zeta.
    set (m := N.shiftr (big.mant z) _).
    assert (Hsize : big.bitLen m = big.prec z).
    { subst m. rewrite bitLen_shiftr; [lia | exact Hm |].
      unfold big.bitLen in *. lia. }
    assert (Hm' : m ≠ 0%N).
    { intros H0. rewrite H0 in Hsize. cbn in Hsize. lia. }
    match goal with
    | |- float_wf _ (if ?inc then _ else _) => destruct inc
    end.
    + destruct (N.eqb_spec (N.succ m) (N.shiftl 1 (Z.to_N (big.prec z)))) as [Hover|Hno].
      * destruct (Z.leb_spec big.MaxExp (big.exp z)).
        -- split; cbn; [reflexivity | split; reflexivity].
        -- split; cbn; [reflexivity|]. split; [|lia].
           rewrite bitLen_shiftl by discriminate. cbn. lia.
      * split; cbn; [reflexivity|]. split; [|exact He].
        apply bitLen_bounds; [exact Hp|].
        pose proof (bitLen_lower m Hm') as Hlo. pose proof (bitLen_upper m) as Hhi.
        rewrite Hsize in Hlo, Hhi. rewrite N.shiftl_1_l in Hno. lia.
    + split; cbn; [reflexivity|]. split; assumption.
Qed.

Lemma setExpAndRound_wf z m e sbit :
  0 < big.prec z → m ≠ 0%N → float_wf (big.prec z) (big.setExpAndRound z m e sbit).
Proof.
  intros Hp Hm. unfold big.setExpAndRound.
  destruct (Z.ltb_spec e big.MinExp); [split; cbn; [reflexivity | split; reflexivity]|].
  destruct (Z.ltb_spec big.MaxExp e); [split; cbn; [reflexivity | split; reflexivity]|].
  apply (Float_round_wf
           (big.mkFloat (big.prec z) (big.mode z) (big.neg z) big.finite m e) sbit);
    cbn; auto.
Qed.

(** The quotient of [uquo] is not zero. *)
Lemma uquo_quotient_nonzero (p : Z) mx my :
  0 <= p → mx ≠ 0%N → my ≠ 0%N →
  (N.shiftl mx (Z.to_N (Z.max 0 (p + 64 - big.bitLen mx + big.bitLen my))) / my)%N ≠ 0%N.
Proof.
  intros Hp Hmx Hmy.
  set (d := Z.max 0 (p + 64 - big.bitLen mx + big.bitLen my)).
  set (xadj := N.shiftl mx (Z.to_N d)).
  assert (Hx : xadj ≠ 0%N) by (apply shiftl_nonzero, Hmx).
  assert (Hbits : big.bitLen my < big.bitLen xadj).
  { subst xadj. rewrite bitLen_shiftl by exact Hmx. lia. }
  pose proof (bitLen_lower xadj Hx) as Hlo.
  pose proof (bitLen_upper my) as Hhi.
  assert (Hle : (2 ^ Z.to_N (big.bitLen my) <= 2 ^ Z.to_N (big.bitLen xadj - 1))%N).
  { apply N.pow_le_mono_r; [discriminate | lia]. }
  intros Hq. apply N.div_small_iff in Hq; [lia | exact Hmy].
Qed.

Lemma Mul_wf z x y r :
  0 < big.prec z →
  (big.fform x = big.finite → big.mant x ≠ 0%N) →
  (big.fform y = big.finite → big.mant y ≠ 0%N) →
  big.Mul z x y = Returns r → float_wf (big.prec z) r.
Proof.
  intros Hp Hx Hy. unfold big.Mul, big.set_prec_if_zero. cbv zeta.
  destruct (Z.eqb_spec (big.prec z) 0); [lia|].
  cbn [big.prec big.mode big.neg big.fform big.mant big.exp].
  destruct (big.fform x) eqn:Hfx, (big.fform y) eqn:Hfy; cbn [big.is_form andb orb];
    intros [= <-]; try (split; cbn; [reflexivity | split; reflexivity]).
  unfold big.umul. cbv zeta.
  apply (setExpAndRound_wf
           (big.mkFloat (big.prec z) (big.mode z) (xorb (big.neg x) (big.neg y))
                        (big.fform z) (big.mant z) (big.exp z))); [exact Hp|].
  apply N.neq_mul_0. split; [apply Hx | apply Hy]; reflexivity.
Qed.

Lemma Quo_wf z x y r :
  0 < big.prec z →
  (big.fform x = big.finite → big.mant x ≠ 0%N) →
  (big.fform y = big.finite → big.mant y ≠ 0%N) →
  big.Quo z x y = Returns r → float_wf (big.prec z) r.
Proof.
  intros Hp Hx Hy. unfold big.Quo, big.set_prec_if_zero. cbv zeta.
  destruct (Z.eqb_spec (big.prec z) 0); [lia|].
  cbn [big.prec big.mode big.neg big.fform big.mant big.exp].
  destruct (big.fform x) eqn:Hfx, (big.fform y) eqn:Hfy; cbn [big.is_form andb orb];
    intros [= <-]; try (split; cbn; [reflexivity | split; reflexivity]).
  unfold big.uquo. cbv zeta.
  cbn [big.prec big.mode big.neg big.fform big.mant big.exp].
  apply (setExpAndRound_wf
           (big.mkFloat (big.prec z) (big.mode z) (xorb (big.neg x) (big.neg y))
                        (big.fform z) (big.mant z) (big.exp z))); [exact Hp|].
  apply uquo_quotient_nonzero; [lia | apply Hx | apply Hy]; reflexivity.
Qed.

Lemma pow5_loop_at_least_one n :
  ∀ z f r, at_least_one z → at_least_one f →
    big.pow5_loop n z f = Returns r → at_least_one r.
Proof.
  induction n as [n IH|n IH|]; intros z f r Hz Hf; cbn [big.pow5_loop].
  - destruct (Mul_at_least_one z z f (proj1 Hz) Hz Hf) as (z' & -> & Hz').
    destruct (Mul_at_least_one f f f (proj1 Hf) Hf Hf) as (f' & -> & Hf').
    cbn [mbind outcome_bind]. apply IH; assumption.
  - destruct (Mul_at_least_one f f f (proj1 Hf) Hf Hf) as (f' & -> & Hf').
    cbn [mbind outcome_bind]. apply IH; assumption.
  - destruct (Mul_at_least_one z z f (proj1 Hz) Hz Hf) as (z' & -> & Hz').
    destruct (Mul_at_least_one f f f (proj1 Hf) Hf Hf) as (f' & -> & Hf').
    cbn [mbind outcome_bind]. intros [= <-]. exact Hz'.
Qed.

(** A power of five is never a zero. *)
Lemma pow5_at_least_one z n r :
  0 <= big.prec z → big.pow5 z n = Returns r → at_least_one r.
Proof.
  intros Hp. unfold big.pow5.
  destruct (n <=? big.pow5tab_max)%N.
  - intros [= <-]. apply SetUint64_at_least_one; [exact Hp|].
    apply N.pow_nonzero. discriminate.
  - cbv zeta.
    assert (Hz : at_least_one (big.SetUint64 z (5 ^ big.pow5tab_max)%N)).
    { apply SetUint64_at_least_one; [exact Hp | discriminate]. }
    destruct (n - big.pow5tab_max)%N as [|n']; [intros [= <-]; exact Hz|].
    apply pow5_loop_at_least_one; [exact Hz|].
    apply SetUint64_at_least_one; [|discriminate]. cbn.
    pose proof (proj1 Hz). lia.
Qed.

Lemma at_least_one_mant r : at_least_one r → big.fform r = big.finite → big.mant r ≠ 0%N.
Proof. intros [_ [Hinf | (_ & Hm & _)]] Hf; [congruence | exact Hm]. Qed.

Lemma Float_scan_wf z r f rest :
  0 < big.prec z → big.Float_scan z r = Returns (Some (f, rest)) →
  float_wf (big.prec z) f.
Proof.
  intros Hp. unfold big.Float_scan. cbv zeta.
  destruct (Z.eqb_spec (big.prec z) 0); [lia|].
  destruct (big.scanSign r) as [[sign r1]|]; [|discriminate].
  destruct (big.nat_scan true r1) as [[[m fcount] r2]|]; [|discriminate].
  destruct (big.scanExponent r2) as [[[e ebase] r3]|]; [|discriminate].
  destruct (N.eqb_spec m 0) as [->|Hm].
  { intros [= <- _]. split; cbn; [reflexivity | split; reflexivity]. }
  set (exps1 := if fcount <? 0 then _ else _).
  destruct exps1 as [exp2a exp5a].
  set (exps2 := if ebase =? 10 then _ else _).
  destruct exps2 as [exp2 exp5].
  destruct (_ && _) eqn:Hrange; [|discriminate].
  apply andb_true_iff in Hrange as [Hlo Hhi]. apply Z.leb_le in Hlo, Hhi.
  destruct (exp5 =? 0).
  { intros [= <- _].
    apply (Float_round_wf (big.mkFloat (big.prec z) (big.mode z) sign big.finite m exp2));
      cbn; auto. }
  cbn [big.prec].
  destruct (exp5 <? 0).
  - destruct (big.pow5 _ _) as [y|msg] eqn:Hy; [|discriminate].
    cbn [mbind outcome_bind].
    destruct (big.Quo _ _ y) as [q|msg] eqn:Hq; [|discriminate].
    cbn [mbind outcome_bind]. intros [= <- _].
    apply pow5_at_least_one in Hy; [|cbn; lia].
    pose proof (fun H1 H2 H3 => Quo_wf _ _ _ _ H1 H2 H3 Hq) as Hwf.
    cbn [big.prec big.fform big.mant] in Hwf.
    apply Hwf; [exact Hp | intros _; exact Hm | apply at_least_one_mant, Hy].
  - destruct (big.pow5 _ _) as [y|msg] eqn:Hy; [|discriminate].
    cbn [mbind outcome_bind].
    destruct (big.Mul _ _ y) as [q|msg] eqn:Hq; [|discriminate].
    cbn [mbind outcome_bind]. intros [= <- _].
    apply pow5_at_least_one in Hy; [|cbn; lia].
    pose proof (fun H1 H2 H3 => Mul_wf _ _ _ _ H1 H2 H3 Hq) as Hwf.
    cbn [big.prec big.fform big.mant] in Hwf.
    apply Hwf; [exact Hp | intros _; exact Hm | apply at_least_one_mant, Hy].
Qed.

Lemma ParseFloat_wf s p m f :
  0 < p → big.ParseFloat s p m = Returns (Some f) → float_wf p f.
Proof.
  intros Hp. unfold big.ParseFloat, big.Float_Parse.
  repeat match goal with
         | |- context [ if ?b then _ else _ ] =>
             destruct b; [intros [= <-]; split; cbn; [reflexivity | split; reflexivity]|]
         end.
  destruct (big.Float_scan (big.newFloat p m) s) as [[[f' rest]|]|msg] eqn:Hscan;
    cbn [mbind outcome_bind]; try discriminate.
  destruct rest; [|discriminate]. intros [= <-].
  exact (Float_scan_wf (big.newFloat p m) _ _ _ Hp Hscan).
Qed.

(** X13: every decimal [Add] stores has a precision of 256 bits: when
    it is finite its mantissa has exactly 256 bits (longer literals are
    rounded to that) and its exponent fits an int32; otherwise it is a
    zero or an infinity. *)
Theorem stored_decimal_wf (value : string) (f : big.Float) :
  coercion value = Returns (VBigFloat f) → float_wf 256 f.
Proof.
  unfold coercion.
  destruct (big.Int_SetString value); [discriminate|].
  destruct (big.ParseFloat value 256 big.ToNearestEven) as [[f'|]|msg] eqn:Hfloat;
    cbn [mbind outcome_bind]; try discriminate.
  - intros [= <-]. apply (ParseFloat_wf value 256 big.ToNearestEven f'); [lia | exact Hfloat].
  - destruct (strconv.ParseBool value); [discriminate|].
    destruct (json.Unmarshal value) as [decoded|] eqn:Hjson; [|discriminate].
    intros [= ->]. apply Unmarshal_json in Hjson. inversion Hjson.
Qed.

Lemma stored_decimal_wf_witness :
  coercion "0.1" = Returns (VBigFloat
    (big.mkFloat 256 big.ToNearestEven false big.finite
       92633671389852956338856788006950326282615987732512451231566067206330503711949 (-3)))
  ∧ float_wf 256
      (big.mkFloat 256 big.ToNearestEven false big.finite
         92633671389852956338856788006950326282615987732512451231566067206330503711949 (-3)).
Proof.
  assert (H : coercion "0.1" = Returns (VBigFloat
    (big.mkFloat 256 big.ToNearestEven false big.finite
       92633671389852956338856788006950326282615987732512451231566067206330503711949 (-3))))
    by (vm_compute; reflexivity).
  split; [exact H | exact (stored_decimal_wf _ _ H)].
Defined.

End StoredDecimals.
